(** * Shopify -> Hanteo sales synchronisation: a shallow embedding

    The development follows the TypeScript sources:

    - [Validators]    : src/utils/validators.ts   (isValidBarcode, generateOpVal,
                        extractBirthYear)
    - [ErrorHandler]  : src/utils/error-handler.ts (the error classes and
                        retryWithBackoff)
    - [Hanteo]        : src/services/hanteo.service.ts (HanteoService)
    - [Sync]          : src/services/sync.service.ts   (SyncService)

    JavaScript strings are sequences of UTF-16 code units; they are modelled
    as [list N].  The outside world (HTTP endpoints, the wall clock, the
    implementation-defined parts of [Date]) is modelled by oracles that the
    functions receive explicitly.  The general theorems quantify over the
    oracles; the examples fix them.  Logging is left out throughout. *)

From Stdlib Require Import ZArith NArith Lia.
From stdpp Require Import gmap list strings.

Set Default Proof Using "Type".

(* ================================================================== *)
(** * JavaScript strings                                               *)
(* ================================================================== *)

Module Js.

(** A JS string: its UTF-16 code units. *)
Abbreviation str := (list N).

(** A string literal of the source (ASCII only). *)
Definition lit (s : string) : str :=
  List.map Ascii.N_of_ascii (String.list_ascii_of_string s).

Definition eqb (a b : str) : bool := bool_decide (a = b).

(** [0-9] *)
Definition isDigit (c : N) : bool := ((48 <=? c) && (c <=? 57))%N.

(** ECMAScript WhiteSpace and LineTerminator code points: what
    [String.prototype.trim] strips and what [\s] matches. *)
Definition isWhiteSpace (c : N) : bool :=
  ((c =? 9) || (c =? 10) || (c =? 11) || (c =? 12) || (c =? 13) ||
   (c =? 32) || (c =? 160) || (c =? 5760) ||
   ((8192 <=? c) && (c <=? 8202)) ||
   (c =? 8232) || (c =? 8233) || (c =? 8239) || (c =? 8287) ||
   (c =? 12288) || (c =? 65279))%N.

Fixpoint trimStart (s : str) : str :=
  match s with
  | c :: s' => if isWhiteSpace c then trimStart s' else s
  | [] => []
  end.

Definition trimEnd (s : str) : str := rev (trimStart (rev s)).

(** [s.trim()] *)
Definition trim (s : str) : str := trimEnd (trimStart s).

(** Decimal digits of a natural number, most significant first; [fuel]
    bounds the number of digits. *)
Fixpoint digitsOf (fuel : nat) (n : N) (acc : str) : str :=
  match fuel with
  | O => acc
  | S fuel' =>
      let acc' := (48 + n mod 10)%N :: acc in
      if (n <? 10)%N then acc' else digitsOf fuel' (n / 10)%N acc'
  end.

(** [Number.prototype.toString] on an integer. *)
Definition ofZ (z : Z) : str :=
  let n := Z.abs_N z in
  let ds := digitsOf (S (N.to_nat (N.log2 n))) n [] in
  if (z <? 0)%Z then 45%N :: ds else ds.

(** ASCII upper-casing of one code unit: the canonicalisation that the
    [i] flag applies (a code unit outside ASCII never canonicalises to an
    ASCII one). *)
Definition upcase (c : N) : N :=
  if ((97 <=? c) && (c <=? 122))%N then (c - 32)%N else c.

Definition eqbCI (a b : N) : bool := (upcase a =? upcase b)%N.

End Js.

(* ================================================================== *)
(** * src/utils/validators.ts : barcodes                               *)
(* ================================================================== *)

Module Validators.
Import Js.

(** The regular expressions of [BARCODE_PATTERNS] are all of the shape
    [^ C1{n1} C2{n2} ... $]: a sequence of character classes, each
    repeated a fixed number of times, anchored at both ends. *)
Definition cls := N -> bool.
Definition pattern := list (cls * nat).

(** Consume exactly [n] code units of class [c]. *)
Fixpoint matchRep (c : cls) (n : nat) (s : str) : option str :=
  match n with
  | O => Some s
  | S n' =>
      match s with
      | x :: s' => if c x then matchRep c n' s' else None
      | [] => None
      end
  end.

(** [pattern.test(s)] for an anchored pattern. *)
Fixpoint test (p : pattern) (s : str) : bool :=
  match p with
  | [] => match s with [] => true | _ => false end
  | (c, n) :: p' =>
      match matchRep c n s with
      | Some rest => test p' rest
      | None => false
      end
  end.

Definition isChar (k : N) : cls := fun c => (c =? k)%N.
Definition oneOf (k1 k2 : N) : cls := fun c => ((c =? k1) || (c =? k2))%N.
Definition digitOrX : cls := fun c => isDigit c || (c =? 88)%N.

Definition EAN13  : pattern := [(isDigit, 13)].
Definition EAN8   : pattern := [(isDigit, 8)].
Definition UPC    : pattern := [(isDigit, 12)].
Definition ISBN10 : pattern := [(isDigit, 9); (digitOrX, 1)].
Definition ISBN13 : pattern :=
  [(isChar 57, 1); (isChar 55, 1); (oneOf 56 57, 1); (isDigit, 10)].

(** [Object.values(BARCODE_PATTERNS)], in declaration order. *)
Definition BARCODE_PATTERNS : list pattern :=
  [EAN13; EAN8; UPC; ISBN10; ISBN13].

Definition isValidBarcode (barcode : str) : bool :=
  match barcode with
  | [] => false                       (* !barcode *)
  | _ =>
      let cleanBarcode := trim barcode in
      if (length cleanBarcode =? 0)%nat then false
      else existsb (fun p => test p cleanBarcode) BARCODE_PATTERNS
  end.

(** [generateOpVal]: [`${orderId}-${lineItemId}-${Date.now()}`], given the
    value [now] that [Date.now()] returned. *)
Definition opValAt (now : Z) (orderId lineItemId : str) : str :=
  orderId ++ lit "-" ++ lineItemId ++ lit "-" ++ ofZ now.

(** ** extractBirthYear *)

(** [s.match(re)] for an unanchored pattern: the leftmost position at which
    the pattern matches; [matchAt] says what it yields there. *)
Fixpoint search {R} (matchAt : str -> option R) (s : str) : option R :=
  match matchAt s with
  | Some r => Some r
  | None =>
      match s with
      | [] => None
      | _ :: s' => search matchAt s'
      end
  end.

(** [/[0-9]{4}/] at one position; yields the matched text. *)
Definition fourDigitsAt (s : str) : option str :=
  match matchRep isDigit 4 s with
  | Some _ => Some (take 4 s)
  | None => None
  end.

(** [parseInt] on a run of decimal digits. *)
Definition parseInt (s : str) : Z :=
  fold_left (fun acc c => acc * 10 + (Z.of_N c - 48))%Z s 0%Z.

(** [extractBirthYear(birthDate)].  What [new Date(birthDate)] makes of a
    string is for the most part implementation-defined, so it is an oracle:
    [dateFullYear s] is [None] when the date is invalid and otherwise its
    [getFullYear()].  [currentYear] is [new Date().getFullYear()]. *)
Definition extractBirthYear (dateFullYear : str -> option Z) (currentYear : Z)
    (birthDate : option str) : option str :=
  match birthDate with
  | None | Some [] => None                    (* !birthDate *)
  | Some s =>
      match dateFullYear s with
      | Some y => Some (ofZ y)
      | None =>
          match search fourDigitsAt s with
          | Some yearMatch =>
              let year := parseInt yearMatch in
              if ((1900 <=? year) && (year <=? currentYear))%Z
              then Some (ofZ year)
              else None
          | None => None
          end
      end
  end.

End Validators.


(* ================================================================== *)
(** * Effects: mutable state, exceptions, unbounded recursion          *)
(* ================================================================== *)

Module Eff.

(** How a call ends: it returns, it throws, or the model ran out of the
    fuel that bounds its recursion depth. *)
Inductive outcome (E A : Type) : Type :=
| Returned (a : A)
| Thrown (e : E)
| OutOfFuel.
Arguments Returned {E A} a.
Arguments Thrown {E A} e.
Arguments OutOfFuel {E A}.

(** A computation over a mutable state [S] that may throw an [E]. *)
Definition M (S E A : Type) : Type := S -> outcome E A * S.

Definition ret {S E A} (a : A) : M S E A := fun s => (Returned a, s).
Definition throw {S E A} (e : E) : M S E A := fun s => (Thrown e, s).
Definition diverge {S E A} : M S E A := fun s => (OutOfFuel, s).

Definition bind {S E A B} (m : M S E A) (k : A -> M S E B) : M S E B :=
  fun s =>
    match m s with
    | (Returned a, s') => k a s'
    | (Thrown e, s') => (Thrown e, s')
    | (OutOfFuel, s') => (OutOfFuel, s')
    end.

(** [try { m } catch (e) { h e }]: the state changes made before the throw
    stay. *)
Definition tryCatch {S E A} (m : M S E A) (h : E -> M S E A) : M S E A :=
  fun s =>
    match m s with
    | (Thrown e, s') => h e s'
    | r => r
    end.

Definition get {S E} : M S E S := fun s => (Returned s, s).
Definition modify {S E} (f : S -> S) : M S E unit := fun s => (Returned tt, f s).

(** [xs.map(f)] for an effectful [f], left to right. *)
Fixpoint mapM {S E A B} (f : A -> M S E B) (xs : list A) : M S E (list B) :=
  match xs with
  | [] => ret []
  | x :: xs' => bind (f x) (fun y => bind (mapM f xs') (fun ys => ret (y :: ys)))
  end.

End Eff.

Declare Scope eff_scope.
Delimit Scope eff_scope with eff.
Notation "x <- m ;; k" := (Eff.bind m (fun x => k))
  (at level 100, m at next level, right associativity) : eff_scope.
Notation "m ;;; k" := (Eff.bind m (fun _ => k))
  (at level 100, right associativity) : eff_scope.

(* ================================================================== *)
(** * src/utils/error-handler.ts                                       *)
(* ================================================================== *)

Module ErrorHandler.
Import Js Eff.
Local Open Scope eff_scope.

(** [error.response] of an HTTP-level failure: the status, and
    [data?.code] when the error body carries one. *)
Record ErrResponse := {
  status : Z;
  dataCode : option Z;
}.

(** [failData]: [opVal -> errorCode], in [Object.entries] order. *)
Abbreviation FailData := (list (str * str)).

(** The values the services throw.  Every one is an [Error] instance, so
    [error instanceof Error ? error.message : ...] is [message].  The
    [details] field of [AppError] only feeds the logs and is left out. *)
Inductive exn : Type :=
| HanteoError (message : str) (code : option Z) (failedData : option FailData)
| AuthenticationError (message : str)
| AxiosError (message : str) (response : option ErrResponse)
| ShopifyError (message : str)
| TypeError (message : str).

Definition message (e : exn) : str :=
  match e with
  | HanteoError m _ _ | AuthenticationError m | AxiosError m _
  | ShopifyError m | TypeError m => m
  end.

(** [error.response]: only the HTTP client's errors have one. *)
Definition response (e : exn) : option ErrResponse :=
  match e with
  | AxiosError _ r => r
  | _ => None
  end.

(** [new HanteoError(message, code, details, failedData)]: the
    constructor prefixes the message. *)
Definition newHanteoError (msg : str) (code : option Z)
    (failedData : option FailData) : exn :=
  HanteoError (lit "Hanteo Error: " ++ msg) code failedData.

(** [retryWithBackoff(fn, {maxRetries, initialDelay, maxDelay, factor})]:
    [for (attempt = 0; attempt <= maxRetries; attempt++)].  Every rejection
    of [fn] is retried, whatever its kind.  [sleep] is the [setTimeout]
    wait; [left] counts the iterations still to run; the [onRetry] callback
    only logs. *)
Fixpoint retryLoop {St A} (sleep : Z -> M St exn unit) (fn : M St exn A)
    (maxRetries : nat) (initialDelay maxDelay factor : Z)
    (attempt left : nat) (lastError : exn) : M St exn A :=
  match left with
  | O => throw lastError
  | S left' =>
      tryCatch fn (fun error =>
        if (attempt =? maxRetries)%nat then throw error
        else
          let delay := Z.min (initialDelay * factor ^ Z.of_nat attempt) maxDelay in
          sleep delay ;;;
          retryLoop sleep fn maxRetries initialDelay maxDelay factor
                    (S attempt) left' error)
  end.

Definition retryWithBackoff {St A} (sleep : Z -> M St exn unit) (fn : M St exn A)
    (maxRetries : nat) (initialDelay : Z) : M St exn A :=
  retryLoop sleep fn maxRetries initialDelay 30000 2 0 (S maxRetries)
            (TypeError (lit "undefined")).

End ErrorHandler.

(* ================================================================== *)
(** * src/services/hanteo.service.ts                                   *)
(* ================================================================== *)

Module Hanteo.
Import Js Eff ErrorHandler Validators.
Local Open Scope eff_scope.
Local Open Scope Z_scope.

(** ** src/config/hanteo.config.ts *)

Definition maxBatchSize : Z := 100.
Definition retryAttempts : nat := 3.
Definition retryDelay : Z := 1000.

Definition SUCCESS : Z := 100.
Definition PARTIAL_SUCCESS : Z := 101.
Definition INVALID_DATA : Z := 604.
Definition INVALID_TOKEN : Z := 821.
Definition TOKEN_EXPIRED : Z := 822.

(** ** Data *)

(** [SalesTransaction].  The optional [customerInfo], [shippingInfo] and
    bookkeeping fields are copied to the wire record without taking part in
    any decision; they are left out.  [transactionTime] is the [Date]'s time
    value in milliseconds. *)
Record SalesTransaction := {
  orderId : str;
  orderName : str;
  lineItemId : str;
  barcode : str;
  albumName : str;
  quantity : Z;
  transactionTime : Z;
}.

(** [HanteoSalesData], the wire record. *)
Record HanteoSalesData := {
  wBarcode : str;
  wAlbumName : str;
  salesVolume : Z;
  realTime : Z;
  opVal : str;
}.

Record ResultData := {
  requestCount : Z;
  successCount : Z;
  failCount : Z;
  failData : option FailData;    (* [None]: absent; [Some []]: [{}] *)
}.

(** [HanteoSalesResponse] *)
Record HanteoSalesResponse := {
  code : Z;
  message : option str;
  resultData : option ResultData;
}.

Record TokenData := {
  access_token : str;
  token_type : str;
  expires_in : Z;
}.

(** [HanteoTokenResponse] *)
Record HanteoTokenResponse := {
  tCode : Z;
  tMessage : option str;
  tResultData : option TokenData;
}.

(** [HanteoToken]; [expiresAt] is a time value in milliseconds. *)
Record HanteoToken := {
  accessToken : str;
  tokenType : str;
  expiresAt : Z;
}.

(** What [axiosInstance.post] settles to. *)
Inductive HttpResult (A : Type) : Type :=
| Resolved (data : A)
| Rejected (error : exn).
Arguments Resolved {A} data.
Arguments Rejected {A} error.

(** The world outside the process.  [clock n] is what the [n]-th reading of
    the wall clock returns.  The HTTP oracles give the reply to a POST from
    the number of POSTs issued before it and, for a submission, from its
    payload. *)
Record World := {
  clock : nat -> Z;
  authHttp : nat -> HttpResult HanteoTokenResponse;
  salesHttp : nat -> list HanteoSalesData -> HttpResult HanteoSalesResponse;
}.

(** What the process does to the outside, in order. *)
Inductive Event : Type :=
| EvAuth                                             (* POST /oauth/token *)
| EvSales (bearer : str) (payload : list HanteoSalesData)  (* POST sales *)
| EvBackoff (ms : Z)                                 (* wait in retryWithBackoff *)
| EvBatchDelay (ms : Z).                             (* wait between batches *)

(** The service object ([this.token]) and the bookkeeping of the world:
    clock readings so far, POSTs so far, and the events so far (oldest
    first). *)
Record State := {
  token : option HanteoToken;
  ticks : nat;
  posts : nat;
  trace : list Event;
}.

Abbreviation M := (Eff.M State exn).

Definition setToken (t : option HanteoToken) : M unit :=
  modify (fun s => {| token := t; ticks := ticks s; posts := posts s;
                      trace := trace s |}).

Definition emit (ev : Event) : M unit :=
  modify (fun s => {| token := token s; ticks := ticks s; posts := posts s;
                      trace := trace s ++ [ev] |}).

(** [m || dflt] on an optional string: absent and empty are both falsy. *)
Definition orElse (m : option str) (dflt : str) : str :=
  match m with
  | Some (c :: r) => c :: r
  | _ => dflt
  end.

Section Service.
Variable w : World.

(** [Date.now()] / [new Date()] *)
Definition now : M Z :=
  fun s => (Returned (clock w (ticks s)),
            {| token := token s; ticks := S (ticks s); posts := posts s;
               trace := trace s |}).

(** One POST: the event is recorded, the POST counter advances, and the
    promise settles as the oracle says. *)
Definition post {A} (ev : Event) (reply : nat -> HttpResult A) : M A :=
  fun s =>
    let s' := {| token := token s; ticks := ticks s; posts := S (posts s);
                 trace := trace s ++ [ev] |} in
    match reply (posts s) with
    | Resolved d => (Returned d, s')
    | Rejected e => (Thrown e, s')
    end.

Definition authenticate : M unit :=
  tryCatch
    (r <- post EvAuth (authHttp w) ;;
     match tCode r =? SUCCESS, tResultData r with
     | true, Some rd =>
         t <- now ;;
         setToken (Some {| accessToken := access_token rd;
                           tokenType := token_type rd;
                           expiresAt := t + expires_in rd * 1000 |})
     | _, _ =>
         throw (AuthenticationError
                  (lit "Authentication failed: "
                   ++ orElse (tMessage r) (lit "Unknown error")))
     end)
    (fun error => throw (newHanteoError (lit "Authentication failed") None None)).

Definition isTokenValid : M bool :=
  s <- get ;;
  match token s with
  | None => ret false
  | Some tok =>
      let expiryBuffer := 5 * 60 * 1000 in
      t <- now ;;
      ret (t + expiryBuffer <? expiresAt tok)
  end.

Definition ensureAuthenticated : M unit :=
  valid <- isTokenValid ;;
  if negb valid then authenticate else ret tt.

(** [isValidTransactionDate] reads the clock once; its result is only
    logged.  [generateOpVal] reads it again. *)
Definition convertToHanteoFormat (transaction : SalesTransaction)
    : M HanteoSalesData :=
  _today <- now ;;
  t <- now ;;
  ret {| wBarcode := barcode transaction;
         wAlbumName := albumName transaction;
         salesVolume := quantity transaction;
         realTime := transactionTime transaction / 1000;
         opVal := opValAt t (orderId transaction) (lineItemId transaction) |}.

(** The request thunk handed to [retryWithBackoff]. *)
Definition postSales (salesData : list HanteoSalesData)
    : M HanteoSalesResponse :=
  s <- get ;;
  match token s with
  | Some tok => post (EvSales (accessToken tok) salesData)
                     (fun n => salesHttp w n salesData)
  | None => throw (TypeError (lit "Cannot read properties of null"))
  end.

(** The test of the [catch] block of [sendSalesData]. *)
Definition isTokenFailure (error : exn) : bool :=
  match response error with
  | Some r =>
      (status r =? 401)
      || bool_decide (dataCode r = Some INVALID_TOKEN)
      || bool_decide (dataCode r = Some TOKEN_EXPIRED)
  | None => false
  end.

Definition emptyResponse : HanteoSalesResponse :=
  {| code := SUCCESS;
     message := Some (lit "No data to send");
     resultData := Some {| requestCount := 0; successCount := 0;
                           failCount := 0; failData := None |} |}.

(** [result.code === PARTIAL_SUCCESS && result.resultData?.failData] *)
Definition partialFailData (result : HanteoSalesResponse) : option FailData :=
  if code result =? PARTIAL_SUCCESS then
    match resultData result with
    | Some rd => failData rd
    | None => None
    end
  else None.

(** [sendSalesData]; [fuel] bounds the depth of the recursive call in the
    [catch] block. *)
Fixpoint sendSalesData (fuel : nat) (transactions : list SalesTransaction)
    : M HanteoSalesResponse :=
  ensureAuthenticated ;;;
  if (length transactions =? 0)%nat then ret emptyResponse
  else
    salesData <- mapM convertToHanteoFormat transactions ;;
    if Z.of_nat (length salesData) >? maxBatchSize then
      throw (newHanteoError
               (lit "Batch size " ++ ofZ (Z.of_nat (length salesData))
                ++ lit " exceeds maximum " ++ ofZ maxBatchSize)
               (Some INVALID_DATA) None)
    else
      tryCatch
        (result <- retryWithBackoff (fun ms => emit (EvBackoff ms))
                     (postSales salesData) retryAttempts retryDelay ;;
         match partialFailData result with
         | Some fd =>
             throw (newHanteoError (lit "Partial success - some records failed")
                      (Some (code result)) (Some fd))
         | None =>
             if negb (code result =? SUCCESS)
                && negb (code result =? PARTIAL_SUCCESS) then
               throw (newHanteoError
                        (orElse (message result)
                                (lit "Sales data submission failed"))
                        (Some (code result)) None)
             else ret result
         end)
        (fun error =>
           if isTokenFailure error then
             setToken None ;;;
             authenticate ;;;
             match fuel with
             | O => diverge
             | S fuel' => sendSalesData fuel' transactions
             end
           else throw error).

(** ** sendSalesDataInBatches *)

(** The accumulator [results]. *)
Record BatchResults := {
  totalSent : Z;
  totalSuccess : Z;
  totalFailed : Z;
  batchResults : list HanteoSalesResponse;
  failedTransactions : list (SalesTransaction * str);
}.

Definition noResults : BatchResults :=
  {| totalSent := 0; totalSuccess := 0; totalFailed := 0;
     batchResults := []; failedTransactions := [] |}.

(** [xs.slice(start, end)] for integer arguments. *)
Definition slice {A} (xs : list A) (start end_ : Z) : list A :=
  let len := Z.of_nat (length xs) in
  let k := if start <? 0 then Z.max (len + start) 0 else Z.min start len in
  let final := if end_ <? 0 then Z.max (len + end_) 0 else Z.min end_ len in
  take (Z.to_nat (final - k)) (drop (Z.to_nat k) xs).

(** [batch.find(tx => generateOpVal(tx.orderId, tx.lineItemId) === opVal)]:
    every evaluation of the predicate calls [generateOpVal], which reads the
    clock. *)
Fixpoint findFailedTx (opVal : str) (batch : list SalesTransaction)
    : M (option SalesTransaction) :=
  match batch with
  | [] => ret None
  | tx :: rest =>
      t <- now ;;
      if Js.eqb (opValAt t (orderId tx) (lineItemId tx)) opVal
      then ret (Some tx)
      else findFailedTx opVal rest
  end.

(** [for (const [opVal, errorCode] of Object.entries(failData))] *)
Fixpoint trackFailed (entries : FailData) (batch : list SalesTransaction)
    (failed : list (SalesTransaction * str))
    : M (list (SalesTransaction * str)) :=
  match entries with
  | [] => ret failed
  | (opVal, errorCode) :: entries' =>
      failedTx <- findFailedTx opVal batch ;;
      match failedTx with
      | Some tx => trackFailed entries' batch (failed ++ [(tx, errorCode)])
      | None => trackFailed entries' batch failed
      end
  end.

(** The [catch] block of the loop body. *)
Definition markBatchFailed (results : BatchResults)
    (batch : list SalesTransaction) (error : exn) : BatchResults :=
  {| totalSent := totalSent results;
     totalSuccess := totalSuccess results;
     totalFailed := totalFailed results + Z.of_nat (length batch);
     batchResults := batchResults results;
     failedTransactions :=
       failedTransactions results
       ++ List.map (fun tx => (tx, ErrorHandler.message error)) batch |}.

(** The [try]/[catch] statement of the loop body, for the batch [batch];
    [more] is the test [i + batchSize < transactions.length] that guards the
    wait.  Only [sendSalesData] can throw inside the [try] block, and it is
    its first statement, so the [catch] block sees [results] as it was when
    the iteration began. *)
Definition submitBatch (sendFuel : nat) (delayBetweenBatches : Z)
    (batch : list SalesTransaction) (more : bool) (results : BatchResults)
    : M BatchResults :=
  tryCatch
    (response <- sendSalesData sendFuel batch ;;
     let pushed := batchResults results ++ [response] in
     results' <-
       match resultData response with
       | Some rd =>
           failed <-
             match failData rd with
             | Some fd => trackFailed fd batch (failedTransactions results)
             | None => ret (failedTransactions results)
             end ;;
           ret {| totalSent := totalSent results + requestCount rd;
                  totalSuccess := totalSuccess results + successCount rd;
                  totalFailed := totalFailed results + failCount rd;
                  batchResults := pushed;
                  failedTransactions := failed |}
       | None =>
           ret {| totalSent := totalSent results;
                  totalSuccess := totalSuccess results;
                  totalFailed := totalFailed results;
                  batchResults := pushed;
                  failedTransactions := failedTransactions results |}
       end ;;
     (if more then emit (EvBatchDelay delayBetweenBatches) else ret tt) ;;;
     ret results')
    (fun error => ret (markBatchFailed results batch error)).

(** The body of the [for] loop at index [i]. *)
Definition processBatch (sendFuel : nat) (transactions : list SalesTransaction)
    (batchSize delayBetweenBatches : Z) (i : Z) (results : BatchResults)
    : M BatchResults :=
  let batch := slice transactions i (i + batchSize) in
  submitBatch sendFuel delayBetweenBatches batch
              (i + batchSize <? Z.of_nat (length transactions)) results.

(** [for (let i = 0; i < transactions.length; i += batchSize)], from index
    [i]; [loopFuel] bounds the number of iterations. *)
Fixpoint batchLoop (sendFuel loopFuel : nat)
    (transactions : list SalesTransaction)
    (batchSize delayBetweenBatches : Z) (i : Z) (results : BatchResults)
    : M BatchResults :=
  if i <? Z.of_nat (length transactions) then
    match loopFuel with
    | O => diverge
    | S loopFuel' =>
        results' <- processBatch sendFuel transactions batchSize
                      delayBetweenBatches i results ;;
        batchLoop sendFuel loopFuel' transactions batchSize
                  delayBetweenBatches (i + batchSize) results'
    end
  else ret results.

(** [sendSalesDataInBatches(transactions, {batchSize, delayBetweenBatches})];
    an option left out takes its default. *)
Definition sendSalesDataInBatches (sendFuel loopFuel : nat)
    (transactions : list SalesTransaction)
    (batchSize delayBetweenBatches : option Z) : M BatchResults :=
  batchLoop sendFuel loopFuel transactions
            (default maxBatchSize batchSize)
            (default 1000 delayBetweenBatches) 0 noResults.

End Service.
End Hanteo.

(* ================================================================== *)
(** * src/services/sync.service.ts                                     *)
(* ================================================================== *)

Module Sync.
Import Js Eff ErrorHandler Validators.
Local Open Scope eff_scope.
Local Open Scope Z_scope.

Record AlbumProduct := {
  productId : Z;
  variantId : Z;
  title : str;
  variantTitle : str;
  vendor : str;
  sku : str;
  barcode : str;
  price : str;
  tags : list str;
}.

(** The world of the cache: the wall clock, and what the [n]-th call of
    [shopifyService.getAlbumProducts] settles to. *)
Record World := {
  clock : nat -> Z;
  getAlbumProducts : nat -> exn + list AlbumProduct;
}.

(** The fields of [SyncService], with the number of clock readings and of
    product fetches so far. *)
Record State := {
  albumProductsCache : gmap Z AlbumProduct;
  lastCacheUpdate : Z;
  ticks : nat;
  fetches : nat;
}.

Abbreviation M := (Eff.M State exn).

Definition CACHE_TTL : Z := 60 * 60 * 1000.

(** A new [SyncService]: an empty map and [new Date(0)]. *)
Definition initial : State :=
  {| albumProductsCache := ∅; lastCacheUpdate := 0; ticks := 0; fetches := 0 |}.

Section Service.
Variable w : World.

Definition now : M Z :=
  fun s => (Returned (clock w (ticks s)),
            {| albumProductsCache := albumProductsCache s;
               lastCacheUpdate := lastCacheUpdate s;
               ticks := S (ticks s); fetches := fetches s |}).

(** [await shopifyService.getAlbumProducts({...})] *)
Definition fetchAlbumProducts : M (list AlbumProduct) :=
  fun s =>
    let s' := {| albumProductsCache := albumProductsCache s;
                 lastCacheUpdate := lastCacheUpdate s;
                 ticks := ticks s; fetches := S (fetches s) |} in
    match getAlbumProducts w (fetches s) with
    | inr products => (Returned products, s')
    | inl e => (Thrown e, s')
    end.

Definition setCache (m : gmap Z AlbumProduct) : M unit :=
  modify (fun s => {| albumProductsCache := m;
                      lastCacheUpdate := lastCacheUpdate s;
                      ticks := ticks s; fetches := fetches s |}).

Definition setLastCacheUpdate (t : Z) : M unit :=
  modify (fun s => {| albumProductsCache := albumProductsCache s;
                      lastCacheUpdate := t;
                      ticks := ticks s; fetches := fetches s |}).

(** [clear()] followed by one [set(product.variantId, product)] per
    product, in order. *)
Definition rebuild (products : list AlbumProduct) : gmap Z AlbumProduct :=
  fold_left (fun m product => <[variantId product := product]> m) products ∅.

Definition syncAlbumProducts : M unit :=
  tryCatch
    (products <- fetchAlbumProducts ;;
     setCache (rebuild products) ;;;
     t <- now ;;
     setLastCacheUpdate t)
    (fun error => throw error).

Definition ensureProductsCached : M unit :=
  t <- now ;;
  s <- get ;;
  let cacheAge := t - lastCacheUpdate s in
  if (cacheAge >? CACHE_TTL) || (size (albumProductsCache s) =? 0)%nat
  then syncAlbumProducts
  else ret tt.

End Service.

(** ** Birth year of a customer *)

(** [x?] followed by the rest of the pattern, greedy with backtracking. *)
Definition matchOpt {R} (c : cls) (k : str -> option R) (s : str) : option R :=
  match s with
  | x :: s' =>
      if c x then
        match k s' with
        | Some r => Some r
        | None => k s
        end
      else k s
  | [] => k s
  end.

(** [x*] followed by the rest of the pattern, greedy with backtracking. *)
Fixpoint matchStar {R} (c : cls) (k : str -> option R) (s : str) : option R :=
  match s with
  | x :: s' =>
      if c x then
        match matchStar c k s' with
        | Some r => Some r
        | None => k s
        end
      else k s
  | [] => k s
  end.

(** A literal under the [i] flag. *)
Fixpoint matchLitCI (l s : str) : option str :=
  match l with
  | [] => Some s
  | a :: l' =>
      match s with
      | c :: s' => if eqbCI a c then matchLitCI l' s' else None
      | [] => None
      end
  end.

(** The longest prefix made of code units of class [c]. *)
Fixpoint spanOf (c : cls) (s : str) : str :=
  match s with
  | x :: s' => if c x then x :: spanOf c s' else []
  | [] => []
  end.

Definition sepUnderscoreDash : cls := oneOf 95 45.          (* [_-] *)
Definition sepColonSpace : cls := fun c => (c =? 58)%N || isWhiteSpace c.  (* [:\s] *)
Definition dateChar : cls :=                                (* [0-9\-\/] *)
  fun c => isDigit c || (c =? 45)%N || (c =? 47)%N.

(** [/birth[_-]?year[:\s]*([0-9]{4})/i] at one position; yields group 1. *)
Definition birthYearAt (s : str) : option str :=
  match matchLitCI (lit "birth") s with
  | Some s1 =>
      matchOpt sepUnderscoreDash (fun s2 =>
        match matchLitCI (lit "year") s2 with
        | Some s3 => matchStar sepColonSpace fourDigitsAt s3
        | None => None
        end) s1
  | None => None
  end.

(** [/birth[_-]?date[:\s]*([0-9\-\/]+)/i] at one position; yields group 1. *)
Definition birthDateAt (s : str) : option str :=
  match matchLitCI (lit "birth") s with
  | Some s1 =>
      matchOpt sepUnderscoreDash (fun s2 =>
        match matchLitCI (lit "date") s2 with
        | Some s3 =>
            matchStar sepColonSpace (fun s4 =>
              match spanOf dateChar s4 with
              | [] => None
              | g => Some g
              end) s3
        | None => None
        end) s1
  | None => None
  end.

(** The fields of [customer] that the extraction reads. *)
Record Customer := {
  ctags : option str;
  note : option str;
}.

(** [if (x)] on an optional string. *)
Definition truthy (x : option str) : option str :=
  match x with
  | Some (c :: r) => Some (c :: r)
  | _ => None
  end.

Definition extractBirthYearFromCustomer (dateFullYear : str -> option Z)
    (currentYear : Z) (customer : Customer) : option str :=
  let fromNote :=
    match truthy (note customer) with
    | Some n =>
        match search birthYearAt n with
        | Some year => Some year
        | None =>
            match search birthDateAt n with
            | Some d => extractBirthYear dateFullYear currentYear (Some d)
            | None => None
            end
        end
    | None => None
    end in
  match truthy (ctags customer) with
  | Some t =>
      match search birthYearAt t with
      | Some year => Some year
      | None => fromNote
      end
  | None => fromNote
  end.

End Sync.

(* ================================================================== *)
(** * More of JavaScript's strings                                  *)
(* ================================================================== *)

Module Text.
Import Js.

(** The lower-casing of one ASCII code unit. *)
Definition asciiLower (c : N) : N :=
  if ((65 <=? c) && (c <=? 90))%N then (c + 32)%N else c.

Definition isAscii (s : str) : Prop := Forall (fun c => (c < 128)%N) s.

(** What [toLowerCase] does to an ASCII string. *)
Definition lowerAscii (s : str) : str := List.map asciiLower s.

(** [s.split(sep)] for a one-unit separator: never empty, [""] for [""]. *)
Fixpoint splitOn (sep : N) (s : str) : list str :=
  match s with
  | [] => [[]]
  | c :: s' =>
      if (c =? sep)%N then [] :: splitOn sep s'
      else match splitOn sep s' with
           | h :: t => (c :: h) :: t
           | [] => [[c]]
           end
  end.

(** [parts.join(sep)] *)
Fixpoint join (sep : str) (parts : list str) : str :=
  match parts with
  | [] => []
  | [p] => p
  | p :: rest => p ++ sep ++ join sep rest
  end.

(** [s.startsWith(sub)] *)
Fixpoint startsWith (sub s : str) : bool :=
  match sub, s with
  | [], _ => true
  | a :: sub', c :: s' => (a =? c)%N && startsWith sub' s'
  | _ :: _, [] => false
  end.

(** [s.includes(sub)] *)
Fixpoint includes (sub s : str) : bool :=
  if startsWith sub s then true
  else match s with
       | [] => false
       | _ :: s' => includes sub s'
       end.

End Text.

(* ================================================================== *)
(** * src/utils/validators.ts : hasAlbumTag                         *)
(* ================================================================== *)

Module Tags.
Import Js Text.

(** [hasAlbumTag(tags)].  [String.prototype.toLowerCase] is an oracle: the
    theorems only use what it does to ASCII strings. *)
Definition hasAlbumTag (toLowerCase : str → str) (tags : str) : bool :=
  match tags with
  | [] => false                                   (* !tags *)
  | _ =>
      let tagList := List.map trim (splitOn 44 (toLowerCase tags)) in
      existsb (Js.eqb (lit "album")) tagList
      || existsb (Js.eqb (lit "albums")) tagList
  end.

End Tags.

(* ================================================================== *)
(** * src/services/sync.service.ts : extractGenderFromCustomer      *)
(* ================================================================== *)

Module Demographics.
Import Js Text Sync.

Definition extractGenderFromCustomer (toLowerCase : str → str)
    (customer : Customer) : option str :=
  let fromNote :=
    match truthy (note customer) with
    | Some n =>
        let note := toLowerCase n in
        if includes (lit "gender:m") note || includes (lit "gender: m") note
        then Some (lit "M")
        else if includes (lit "gender:f") note || includes (lit "gender: f") note
                || includes (lit "gender:w") note || includes (lit "gender: w") note
        then Some (lit "W")
        else None
    | None => None
    end in
  match truthy (ctags customer) with
  | Some t =>
      let tags := toLowerCase t in
      if includes (lit "male") tags || includes (lit "man") tags
      then Some (lit "M")
      else if includes (lit "female") tags || includes (lit "woman") tags
      then Some (lit "W")
      else fromNote
  | None => fromNote
  end.

(** [convertGender(gender)] of src/utils/validators.ts, which
    [convertToHanteoFormat] applies to the extracted gender. *)
Definition convertGender (toUpperCase : str → str) (gender : option str)
    : option str :=
  match truthy gender with
  | None => None                                  (* !gender *)
  | Some g =>
      let normalized := toUpperCase g in
      if Js.eqb normalized (lit "M") || Js.eqb normalized (lit "MALE")
         || Js.eqb normalized (lit "1")
      then Some (lit "M")
      else if Js.eqb normalized (lit "F") || Js.eqb normalized (lit "W")
              || Js.eqb normalized (lit "FEMALE") || Js.eqb normalized (lit "2")
      then Some (lit "W")
      else None
  end.

End Demographics.

(* ================================================================== *)
(** * src/config/hanteo.config.ts : COUNTRY_CODE_MAP, getCountryCode *)
(* ================================================================== *)

Module Country.
Import Js.

(** The own properties of [COUNTRY_CODE_MAP], in declaration order. *)
Definition COUNTRY_CODE_MAP : list (string * string) :=
  [("United States", "US"); ("Canada", "CA"); ("United Kingdom", "GB");
   ("Australia", "AU"); ("Japan", "JP"); ("South Korea", "KR");
   ("China", "CN"); ("Germany", "DE"); ("France", "FR"); ("Brazil", "BR");
   ("Mexico", "MX"); ("Singapore", "SG"); ("Malaysia", "MY");
   ("Thailand", "TH"); ("Philippines", "PH"); ("Indonesia", "ID");
   ("Vietnam", "VN"); ("India", "IN"); ("Netherlands", "NL"); ("Spain", "ES");
   ("Italy", "IT"); ("Poland", "PL"); ("Sweden", "SE"); ("Norway", "NO");
   ("Denmark", "DK"); ("Finland", "FI"); ("Belgium", "BE");
   ("Switzerland", "CH"); ("Austria", "AT"); ("New Zealand", "NZ");
   ("Argentina", "AR"); ("Chile", "CL"); ("Colombia", "CO"); ("Peru", "PE");
   ("South Africa", "ZA"); ("United Arab Emirates", "AE");
   ("Saudi Arabia", "SA"); ("Israel", "IL"); ("Turkey", "TR");
   ("Russia", "RU"); ("Ukraine", "UA"); ("Czech Republic", "CZ");
   ("Hungary", "HU"); ("Portugal", "PT"); ("Greece", "GR"); ("Romania", "RO");
   ("Ireland", "IE"); ("default", "XX")]%string.

(** The property names every object literal inherits from
    [Object.prototype]; their values are functions or objects, all truthy. *)
Definition inheritedNames : list string :=
  ["constructor"; "hasOwnProperty"; "isPrototypeOf"; "propertyIsEnumerable";
   "toLocaleString"; "toString"; "valueOf"; "__defineGetter__";
   "__defineSetter__"; "__lookupGetter__"; "__lookupSetter__";
   "__proto__"]%string.

(** What [obj[key]] evaluates to on the map. *)
Inductive Property : Type :=
| Code (code : str)          (* an own property: a country code *)
| Inherited                  (* a member of [Object.prototype] *)
| Undefined.

Fixpoint own (table : list (string * string)) (key : str) : option str :=
  match table with
  | [] => None
  | (k, v) :: rest => if Js.eqb (lit k) key then Some (lit v) else own rest key
  end.

Definition lookup (key : str) : Property :=
  match own COUNTRY_CODE_MAP key with
  | Some v => Code v
  | None =>
      if existsb (fun n => Js.eqb (lit n) key) inheritedNames
      then Inherited else Undefined
  end.

(** [COUNTRY_CODE_MAP[countryName] || COUNTRY_CODE_MAP.default]; every code
    of the table is a non-empty string, hence truthy. *)
Definition getCountryCode (countryName : str) : Property :=
  match lookup countryName with
  | Undefined | Code [] => lookup (lit "default")
  | found => found
  end.

End Country.

(* ================================================================== *)
(** * src/services/hanteo.service.ts : validateConfiguration        *)
(* ================================================================== *)

Module Configuration.
Import Js Eff ErrorHandler Hanteo.
Local Open Scope eff_scope.

Definition validateConfiguration (w : World) : M bool :=
  tryCatch (authenticate w ;;; ret true) (fun error => ret false).

End Configuration.

(* ================================================================== *)
(** * src/services/shopify.service.ts : extractIdFromGid            *)
(* ================================================================== *)

Module Shopify.
Import Js Validators.
Local Open Scope Z_scope.

(** [/\/(\d+)$/] at one position: a slash, then one digit or more up to the
    end of the string; yields the digits. *)
Definition idAt (s : str) : option str :=
  match s with
  | c :: d :: ds =>
      if (c =? 47)%N && forallb isDigit (d :: ds) then Some (d :: ds) else None
  | _ => None
  end.

(** [extractIdFromGid(gid)].  [parseInt(match[1], 10)] is the Number nearest
    to the integer that the digits denote; [toNumber] is that rounding. *)
Definition extractIdFromGid (toNumber : Z → Z) (gid : str) : Z :=
  match search idAt gid with
  | Some digits => toNumber (parseInt digits)
  | None => 0
  end.

End Shopify.

(* ================================================================== *)
(** * src/services/sync.service.ts : processOrder                   *)
(* ================================================================== *)

Module Orders.
Import Js Eff ErrorHandler Text Country Demographics.
Local Open Scope Z_scope.

(** ** src/models/order.model.ts: the fields that [processOrder] reads *)

Record ShopifyLineItem := {
  li_id : Z;
  variant_id : Z;
  li_quantity : Z;
}.

Record ShopifyFulfillment := {
  f_id : Z;
  created_at : str;
  tracking_number : option str;
  tracking_numbers : option (list str);
  line_items : list ShopifyLineItem;
}.

Record ShopifyAddress := {
  city : option str;
  province : option str;
  country : str;
  country_code : option str;
  country_name : option str;
}.

(** [c_fields]: the [tags] and the [note]. *)
Record ShopifyCustomer := {
  c_id : Z;
  c_email : option str;
  c_fields : Sync.Customer;
}.

Record ShopifyOrder := {
  o_id : Z;
  o_name : str;
  customer : option ShopifyCustomer;
  shipping_address : option ShopifyAddress;
  fulfillments : option (list ShopifyFulfillment);
}.

(** ** The transaction that [processOrder] builds *)

Record CustomerInfo := {
  ci_id : str;
  ci_email : option str;
  gender : option str;
  birthYear : option str;
}.

Record ShippingInfo := {
  si_country : str;
  countryCode : Property;
  si_city : option str;
  si_province : option str;
}.

(** A [SalesTransaction] in full: [core] holds the fields that the
    submission reads, the others are those it only carries along. *)
Record Transaction := {
  core : Hanteo.SalesTransaction;
  fulfillmentId : str;
  productId : str;
  variantId : str;
  customerInfo : option CustomerInfo;
  shippingInfo : option ShippingInfo;
  trackingNumber : option str;
  status : str;
}.

(** What the JavaScript runtime contributes: [String.prototype.toLowerCase],
    the year of [new Date(s)] when [s] parses, the current year, and the
    time value of [new Date(s)].  The year is taken not to change during a
    run, and [created_at] to be a date that parses. *)
Record Runtime := {
  toLowerCase : str → str;
  dateFullYear : str → option Z;
  currentYear : Z;
  dateTime : str → Z;
}.

Section Extraction.
Variable rt : Runtime.

(** [!fulfillment.tracking_number && !fulfillment.tracking_numbers?.length]
    is the test that skips a fulfilment; [tracked] is its negation. *)
Definition tracked (fulfillment : ShopifyFulfillment) : bool :=
  match Sync.truthy (tracking_number fulfillment), tracking_numbers fulfillment with
  | Some _, _ => true
  | None, Some (_ :: _) => true
  | None, _ => false
  end.

(** [fulfillment.tracking_number || fulfillment.tracking_numbers?.[0]] *)
Definition trackingNumberOf (fulfillment : ShopifyFulfillment) : option str :=
  match Sync.truthy (tracking_number fulfillment) with
  | Some t => Some t
  | None =>
      match tracking_numbers fulfillment with
      | Some (t :: _) => Some t
      | _ => None
      end
  end.

Definition customerInfoOf (order : ShopifyOrder) : option CustomerInfo :=
  match customer order with
  | Some c =>
      Some {| ci_id := ofZ (c_id c);
              ci_email := c_email c;
              gender := extractGenderFromCustomer (toLowerCase rt) (c_fields c);
              birthYear :=
                Sync.extractBirthYearFromCustomer (dateFullYear rt)
                  (currentYear rt) (c_fields c) |}
  | None => None
  end.

Definition shippingInfoOf (order : ShopifyOrder) : option ShippingInfo :=
  match shipping_address order with
  | Some a =>
      Some {| si_country :=
                match Sync.truthy (country_name a) with
                | Some n => n
                | None => country a
                end;
              countryCode :=
                match Sync.truthy (country_code a) with
                | Some c => Code c
                | None => getCountryCode (country a)
                end;
              si_city := city a;
              si_province := province a |}
  | None => None
  end.

(** The object literal [transaction] of the inner loop. *)
Definition transactionOf (order : ShopifyOrder) (fulfillment : ShopifyFulfillment)
    (lineItem : ShopifyLineItem) (albumProduct : Sync.AlbumProduct)
    : Transaction :=
  {| core :=
       {| Hanteo.orderId := ofZ (o_id order);
          Hanteo.orderName := o_name order;
          Hanteo.lineItemId := ofZ (li_id lineItem);
          Hanteo.barcode := Sync.barcode albumProduct;
          Hanteo.albumName :=
            trim (Sync.title albumProduct ++ lit " - "
                  ++ Sync.variantTitle albumProduct);
          Hanteo.quantity := li_quantity lineItem;
          Hanteo.transactionTime := dateTime rt (created_at fulfillment) |};
     fulfillmentId := ofZ (f_id fulfillment);
     productId := ofZ (Sync.productId albumProduct);
     variantId := ofZ (Sync.variantId albumProduct);
     customerInfo := customerInfoOf order;
     shippingInfo := shippingInfoOf order;
     trackingNumber := trackingNumberOf fulfillment;
     status := lit "pending" |}.

(** [for (const lineItem of fulfillment.line_items)], pushing onto
    [transactions]. *)
Fixpoint lineItemsLoop (cache : gmap Z Sync.AlbumProduct) (order : ShopifyOrder)
    (fulfillment : ShopifyFulfillment) (items : list ShopifyLineItem)
    (transactions : list Transaction) : list Transaction :=
  match items with
  | [] => transactions
  | lineItem :: rest =>
      match cache !! variant_id lineItem with
      | None => lineItemsLoop cache order fulfillment rest transactions
      | Some albumProduct =>
          lineItemsLoop cache order fulfillment rest
            (transactions ++ [transactionOf order fulfillment lineItem albumProduct])
      end
  end.

(** [for (const fulfillment of order.fulfillments)] *)
Fixpoint fulfillmentsLoop (cache : gmap Z Sync.AlbumProduct) (order : ShopifyOrder)
    (fs : list ShopifyFulfillment) (transactions : list Transaction)
    : list Transaction :=
  match fs with
  | [] => transactions
  | fulfillment :: rest =>
      if tracked fulfillment then
        fulfillmentsLoop cache order rest
          (lineItemsLoop cache order fulfillment (line_items fulfillment)
                         transactions)
      else fulfillmentsLoop cache order rest transactions
  end.

End Extraction.
End Orders.

(* ================================================================== *)
(** * src/services/sync.service.ts : the runs                       *)
(* ================================================================== *)

Module App.
Import Js Eff ErrorHandler Orders.
Local Open Scope eff_scope.
Local Open Scope Z_scope.

(** The worlds of the two services, and what the order calls of
    [shopifyService] settle to, from the number of such calls made before
    and, where there is one, the order id asked for. *)
Record World := {
  syncWorld : Sync.World;
  hanteoWorld : Hanteo.World;
  getFulfilledOrders : nat → exn + list ShopifyOrder;
  getOrderById : nat → Z → exn + ShopifyOrder;
  getOrderFulfillments : nat → Z → exn + list ShopifyFulfillment;
}.

(** The two singletons [syncService] and [hanteoService], and the number of
    order calls so far. *)
Record State := {
  sync : Sync.State;
  hanteo : Hanteo.State;
  calls : nat;
}.

Abbreviation M := (Eff.M State exn).

Definition liftSync {A} (m : Sync.M A) : M A :=
  fun s =>
    let '(r, s') := m (sync s) in
    (r, {| sync := s'; hanteo := hanteo s; calls := calls s |}).

Definition liftHanteo {A} (m : Hanteo.M A) : M A :=
  fun s =>
    let '(r, s') := m (hanteo s) in
    (r, {| sync := sync s; hanteo := s'; calls := calls s |}).

(** One order call of [shopifyService]. *)
Definition call {A} (reply : nat → exn + A) : M A :=
  fun s =>
    let s' := {| sync := sync s; hanteo := hanteo s; calls := S (calls s) |} in
    match reply (calls s) with
    | inr a => (Returned a, s')
    | inl e => (Thrown e, s')
    end.

(** The accumulator [results] of [processRecentFulfilledOrders]; an entry of
    [errors] is [(orderId, error)]. *)
Record RunResults := {
  ordersProcessed : Z;
  transactionsSent : Z;
  transactionsSuccess : Z;
  transactionsFailed : Z;
  errors : list (str * str);
}.

Definition freshResults : RunResults :=
  {| ordersProcessed := 0; transactionsSent := 0; transactionsSuccess := 0;
     transactionsFailed := 0; errors := [] |}.

Section Service.
Variable rt : Runtime.
Variable w : World.

(** [processOrder(order)]: the fulfilments are fetched when the order has
    none. *)
Definition processOrder (order : ShopifyOrder) : M (list Transaction) :=
  fs <- match fulfillments order with
        | Some (f :: rest) => ret (f :: rest)
        | _ => call (fun n => getOrderFulfillments w n (o_id order))
        end ;;
  s <- get ;;
  ret (fulfillmentsLoop rt (Sync.albumProductsCache (sync s)) order fs []).

(** [for (const order of orders)] with its [try]/[catch]. *)
Fixpoint ordersLoop (orders : list ShopifyOrder)
    (allTransactions : list Transaction) (results : RunResults)
    : M (list Transaction * RunResults) :=
  match orders with
  | [] => ret (allTransactions, results)
  | order :: rest =>
      r <- tryCatch
             (transactions <- processOrder order ;;
              ret (allTransactions ++ transactions,
                   {| ordersProcessed := ordersProcessed results + 1;
                      transactionsSent := transactionsSent results;
                      transactionsSuccess := transactionsSuccess results;
                      transactionsFailed := transactionsFailed results;
                      errors := errors results |}))
             (fun error =>
                ret (allTransactions,
                     {| ordersProcessed := ordersProcessed results;
                        transactionsSent := transactionsSent results;
                        transactionsSuccess := transactionsSuccess results;
                        transactionsFailed := transactionsFailed results;
                        errors := errors results
                                  ++ [(o_name order, message error)] |})) ;;
      ordersLoop rest (fst r) (snd r)
  end.

(** [processRecentFulfilledOrders(options)].  The options only shape the
    request for the orders; they are taken to give a valid
    [updated_at_min].  The two fuels are those of
    [sendSalesDataInBatches]. *)
Definition processRecentFulfilledOrders (sendFuel loopFuel : nat)
    : M RunResults :=
  liftSync (Sync.ensureProductsCached (syncWorld w)) ;;;
  tryCatch
    (orders <- call (getFulfilledOrders w) ;;
     r <- ordersLoop orders [] freshResults ;;
     let allTransactions := fst r in
     let results := snd r in
     if (0 <? length allTransactions)%nat then
       batchResults <-
         liftHanteo (Hanteo.sendSalesDataInBatches (hanteoWorld w) sendFuel
                       loopFuel (List.map core allTransactions) None None) ;;
       ret {| ordersProcessed := ordersProcessed results;
              transactionsSent := Hanteo.totalSent batchResults;
              transactionsSuccess := Hanteo.totalSuccess batchResults;
              transactionsFailed := Hanteo.totalFailed batchResults;
              errors := errors results |}
     else ret results)
    (fun error => throw error).

(** [processWebhookFulfillment(payload)], for [payload.id]. *)
Definition processWebhookFulfillment (sendFuel : nat) (payloadId : Z) : M unit :=
  tryCatch
    (liftSync (Sync.ensureProductsCached (syncWorld w)) ;;;
     order <- call (fun n => getOrderById w n payloadId) ;;
     transactions <- processOrder order ;;
     if (0 <? length transactions)%nat then
       _result <- liftHanteo (Hanteo.sendSalesData (hanteoWorld w) sendFuel
                                (List.map core transactions)) ;;
       ret tt
     else ret tt)
    (fun error => throw error).

End Service.
End App.

(* ================================================================== *)
(** * Specification-side definitions                                   *)
(* ================================================================== *)

Module ValidatorsSpec.
Import Js Validators.

(** The barcode shapes as the specification names them. *)
Definition allDigits (t : str) : Prop := Forall (fun c => isDigit c = true) t.

(** A numeric string of length [n]. *)
Definition numericOfLength (n : nat) (t : str) : Prop := length t = n ∧ allDigits t.

(** The 10-digit ISBN pattern: nine digits and a check character, a digit
    or [X]. *)
Definition isbn10Form (t : str) : Prop :=
  ∃ body c, t = body ++ [c] ∧ numericOfLength 9 body ∧ (isDigit c = true ∨ c = 88%N).

(** The 13-digit ISBN pattern: the prefix 978 or 979 and ten digits. *)
Definition isbn13Form (t : str) : Prop :=
  ∃ d rest, t = [57%N; 55%N; d] ++ rest ∧ (d = 56%N ∨ d = 57%N) ∧ numericOfLength 10 rest.

Definition validBarcodeText (t : str) : Prop :=
  numericOfLength 8 t ∨ numericOfLength 12 t ∨ numericOfLength 13 t
  ∨ isbn10Form t ∨ isbn13Form t.

(** The code units that count as white space: tab, line feed, vertical tab,
    form feed, carriage return, space, no-break space, the space separators
    of Unicode, the line and paragraph separators and the byte order
    mark. *)
Definition whiteSpaceUnits : list N :=
  [9; 10; 11; 12; 13; 32; 160; 5760;
   8192; 8193; 8194; 8195; 8196; 8197; 8198; 8199; 8200; 8201; 8202;
   8232; 8233; 8239; 8287; 12288; 65279]%N.

Definition whiteSpace (t : str) : Prop := Forall (fun c => c ∈ whiteSpaceUnits) t.

(** [s] is [t] with white space before and after it. *)
Definition padded (s t : str) : Prop :=
  ∃ pre post, s = pre ++ t ++ post ∧ whiteSpace pre ∧ whiteSpace post.

End ValidatorsSpec.

Module BirthYearSpec.
Import Js Validators Sync.
Local Open Scope Z_scope.

(** The one form of [new Date(s)] used in the examples: the ECMAScript
    date-time string format fixes the year-only form [YYYY] as 1 January of
    that year, 00:00 UTC, so in a time zone at or east of UTC
    [getFullYear()] is that year.  Every other string is left invalid. *)
Definition yearOnlyDate (s : str) : option Z :=
  match matchRep isDigit 4 s with
  | Some [] => Some (parseInt s)
  | _ => None
  end.

End BirthYearSpec.

Module HanteoSpec.
Import Js Eff ErrorHandler Validators Hanteo.
Local Open Scope Z_scope.

(** The token test of [isTokenValid], at the clock reading it would make. *)
Definition tokenValidAt (w : World) (s : State) : bool :=
  match token s with
  | None => false
  | Some tok => clock w (ticks s) + 300000 <? expiresAt tok
  end.

Definition authFailure : exn :=
  newHanteoError (lit "Authentication failed") None None.

(** Whether the handshake issued as POST number [n] yields a token. *)
Definition handshakeSucceeds (w : World) (n : nat) : bool :=
  match authHttp w n with
  | Resolved r =>
      (tCode r =? SUCCESS)
      && match tResultData r with Some _ => true | None => false end
  | Rejected _ => false
  end.

(** C3 as the specification words it: a zero-count success, and nothing
    sent. *)
Definition emptySubmissionIsOffline (w : World) (fuel : nat) (s : State) : Prop :=
  let '(r, s') := sendSalesData w fuel [] s in
  r = Returned emptyResponse ∧ trace s' = trace s.

Definition tokenOk : HttpResult HanteoTokenResponse :=
  Resolved {| tCode := 100; tMessage := Some (lit "Success");
              tResultData := Some {| access_token := lit "token-1";
                                     token_type := lit "bearer";
                                     expires_in := 3600 |} |}.

Definition unauthorized : HttpResult HanteoSalesResponse :=
  Rejected (AxiosError (lit "Request failed with status code 401")
                       (Some {| status := 401; dataCode := None |})).

(** A reporting API that rejects every submission as unauthorized while its
    token endpoint keeps issuing tokens. *)
Definition alwaysUnauthorized : World :=
  {| clock := fun _ => 0;
     authHttp := fun _ => tokenOk;
     salesHttp := fun _ _ => unauthorized |}.

Definition isAuth (ev : Event) : bool :=
  match ev with EvAuth => true | _ => false end.
Definition isSales (ev : Event) : bool :=
  match ev with EvSales _ _ => true | _ => false end.
Definition isBatchDelay (ev : Event) : bool :=
  match ev with EvBatchDelay _ => true | _ => false end.

(** How many events of a kind a trace holds. *)
Definition count (kind : Event → bool) (tr : list Event) : nat :=
  length (List.filter kind tr).

(** Fixed-size contiguous chunks, in order: the first [c] elements, then
    the chunks of the rest.  [fuel] bounds the number of chunks. *)
Fixpoint chunksFuel {A} (fuel c : nat) (xs : list A) : list (list A) :=
  match fuel with
  | O => []
  | S fuel' =>
      match xs with
      | [] => []
      | _ :: _ => take c xs :: chunksFuel fuel' c (drop c xs)
      end
  end.

Definition chunks {A} (c : nat) (xs : list A) : list (list A) :=
  chunksFuel (length xs) c xs.

(** Chunked submission as the specification words it: the chunks are
    submitted one after the other, each with the aggregate so far; [more]
    tells [submitBatch] whether a chunk follows. *)
Fixpoint runChunks (w : World) (sendFuel : nat) (delayBetweenBatches : Z)
    (bs : list (list SalesTransaction)) (results : BatchResults)
    : M BatchResults :=
  match bs with
  | [] => ret results
  | b :: rest =>
      bind (submitBatch w sendFuel delayBetweenBatches b
              (match rest with [] => false | _ :: _ => true end) results)
           (fun results' => runChunks w sendFuel delayBetweenBatches rest results')
  end.



(** C4 as the specification words it, for the waits: one wait between each
    two consecutive chunks. *)
Definition waitsBetweenAllChunks (w : World) (sendFuel loopFuel : nat)
    (txs : list SalesTransaction) (c : nat) (d : Z) (s : State) : Prop :=
  let '(r, s') :=
    sendSalesDataInBatches w sendFuel loopFuel txs (Some (Z.of_nat c)) (Some d) s in
  count isBatchDelay (trace s')
  = (count isBatchDelay (trace s) + (length (chunks c txs) - 1))%nat.

Definition sampleTx (order item : string) : SalesTransaction :=
  {| orderId := lit order; orderName := lit "#1001"; lineItemId := lit item;
     barcode := lit "8809633189505"; albumName := lit "Test Album";
     quantity := 1; transactionTime := 1749690000000 |}.

Definition accepted (n : Z) : HttpResult HanteoSalesResponse :=
  Resolved {| code := 100; message := Some (lit "Success");
              resultData := Some {| requestCount := n; successCount := n;
                                    failCount := 0; failData := None |} |}.

Definition networkError : HttpResult HanteoSalesResponse :=
  Rejected (AxiosError (lit "Network Error") None).

(** A service holding a token that stays valid. *)
Definition authenticated : State :=
  {| token := Some {| accessToken := lit "token-0"; tokenType := lit "bearer";
                      expiresAt := 1749700000000 |};
     ticks := 0; posts := 0; trace := [] |}.

(** A submission among the first four POSTs fails at the network level; a
    later one is accepted. *)
Definition flakyStart : World :=
  {| clock := fun n => 1749690000000 + Z.of_nat n;
     authHttp := fun _ => tokenOk;
     salesHttp := fun n payload =>
       if (n <? 4)%nat then networkError
       else accepted (Z.of_nat (length payload)) |}.

(** A reporting API that rejects every record of a submission, naming each
    by the [opVal] it was sent with. *)
Definition rejectingRecords (code : Z) : World :=
  {| clock := fun n => 1749690000000 + Z.of_nat n;
     authHttp := fun _ => tokenOk;
     salesHttp := fun _ payload =>
       Resolved {| code := code; message := Some (lit "Success");
                   resultData :=
                     Some {| requestCount := Z.of_nat (length payload);
                             successCount := 0;
                             failCount := Z.of_nat (length payload);
                             failData :=
                               Some (List.map (fun r => (opVal r, lit "404_UC"))
                                              payload) |} |} |}.

(** A submission among the first ten POSTs is answered with 401, a later
    one is accepted; the token endpoint issues a token every time. *)
Definition unauthorizedTwice : World :=
  {| clock := fun _ => 0;
     authHttp := fun _ => tokenOk;
     salesHttp := fun n payload =>
       if (n <? 10)%nat then unauthorized
       else accepted (Z.of_nat (length payload)) |}.

(** A reporting API that answers every submission with the partial-success
    code and no failure map. *)
Definition partialWithoutMap : World :=
  {| clock := fun n => 1749690000000 + Z.of_nat n;
     authHttp := fun _ => tokenOk;
     salesHttp := fun _ payload =>
       Resolved {| code := 101; message := Some (lit "Partial success");
                   resultData :=
                     Some {| requestCount := Z.of_nat (length payload);
                             successCount := 0;
                             failCount := Z.of_nat (length payload);
                             failData := None |} |} |}.

Definition fresh : State :=
  {| token := None; ticks := 0; posts := 0; trace := [] |}.

End HanteoSpec.

Module SyncSpec.
Import Js Eff ErrorHandler Validators Sync.
Local Open Scope Z_scope.

(** The state after one more reading of the clock. *)
Definition ticked (s : State) : State :=
  {| albumProductsCache := albumProductsCache s;
     lastCacheUpdate := lastCacheUpdate s;
     ticks := S (ticks s); fetches := fetches s |}.

Definition sampleProduct : AlbumProduct :=
  {| productId := 1234567890; variantId := 9876543210;
     title := lit "Test Album 1"; variantTitle := lit "CD Version";
     vendor := lit "Artist 1"; sku := lit "ALB-001";
     barcode := lit "8809633189505"; price := lit "25.00";
     tags := [lit "album"; lit "k-pop"] |}.

(** A catalogue that always lists [sampleProduct]; the clock advances by
    half an hour per reading. *)
Definition halfHourly : World :=
  {| clock := fun n => 1749690000000 + 1800000 * Z.of_nat n;
     getAlbumProducts := fun _ => inr [sampleProduct] |}.

(** The catalogue is unreachable. *)
Definition unreachable : World :=
  {| clock := fun n => 1749690000000 + 1800000 * Z.of_nat n;
     getAlbumProducts := fun _ => inl (ShopifyError (lit "Shopify Error: API Error")) |}.

Definition warm : State :=
  {| albumProductsCache := {[ 9876543210 := sampleProduct ]};
     lastCacheUpdate := 1749680000000; ticks := 0; fetches := 1 |}.

End SyncSpec.

Module CountrySpec.
Import Js.


End CountrySpec.

Module RetrySpec.
Import Js Eff ErrorHandler.
Local Open Scope Z_scope.

(** An operation whose [n]-th call settles as a script says, with the
    bookkeeping of the calls made and of the waits. *)
Record Attempts := {
  made : nat;
  waited : list Z;
}.

Definition scripted {A} (script : nat → exn + A) : Eff.M Attempts exn A :=
  fun s =>
    (match script (made s) with
     | inr a => Returned a
     | inl e => Thrown e
     end,
     {| made := S (made s); waited := waited s |}).

Definition pause (ms : Z) : Eff.M Attempts exn unit :=
  fun s => (Returned tt, {| made := made s; waited := waited s ++ [ms] |}).

(** The wait after failed attempt number [attempt] (from 0). *)
Definition backoff (initialDelay : Z) (attempt : nat) : Z :=
  Z.min (initialDelay * 2 ^ Z.of_nat attempt) 30000.

Definition failsAt {A} (script : nat → exn + A) (j : nat) : Prop :=
  ∃ e, script j = inl e.

Definition flaky (k : nat) : nat → exn + Z :=
  fun n => if (n <? k)%nat then inl (AxiosError (lit "Network Error") None)
           else inr 7.

End RetrySpec.

Module SubmitterSpec.
Import Js Eff ErrorHandler Validators Hanteo HanteoSpec.
Local Open Scope Z_scope.

(** The token data that the handshake issued as POST number [n] yields, if
    it yields any. *)
Definition issuedToken (w : World) (n : nat) : option TokenData :=
  match authHttp w n with
  | Resolved r => if tCode r =? SUCCESS then tResultData r else None
  | Rejected _ => None
  end.

(** What a reply that the HTTP layer accepted means for the caller of
    [sendSalesData]. *)
Definition replyOutcome (result : HanteoSalesResponse)
    : outcome exn HanteoSalesResponse :=
  if code result =? SUCCESS then Returned result
  else if code result =? PARTIAL_SUCCESS then
    match resultData result with
    | Some {| failData := Some fd |} =>
        Thrown (newHanteoError (lit "Partial success - some records failed")
                               (Some PARTIAL_SUCCESS) (Some fd))
    | _ => Returned result
    end
  else
    Thrown (newHanteoError
              (orElse (message result) (lit "Sales data submission failed"))
              (Some (code result)) None).

(** A reporting API that accepts every record, at a frozen clock. *)
Definition acceptingAll : World :=
  {| clock := fun _ => 1749690000000;
     authHttp := fun _ => tokenOk;
     salesHttp := fun _ payload => accepted (Z.of_nat (length payload)) |}.

End SubmitterSpec.

Module ShopifySpec.
Local Open Scope Z_scope.

(** The binary64 number nearest to a natural number below [2^1024]: 53
    significant bits, ties to even. *)
Definition nearestDouble (n : Z) : Z :=
  let e := Z.log2 n in
  if e <=? 52 then n
  else
    let ulp := 2 ^ (e - 52) in
    let q := n / ulp in
    let r := n mod ulp in
    let q' := if 2 * r <? ulp then q
              else if ulp <? 2 * r then q + 1
              else if Z.even q then q else q + 1 in
    q' * ulp.

End ShopifySpec.

Module OrdersSpec.
Import Js Orders.

(** The album line items of the tracked fulfilments, in order. *)
Definition reported (rt : Runtime) (cache : gmap Z Sync.AlbumProduct)
    (order : ShopifyOrder) (fs : list ShopifyFulfillment) : list Transaction :=
  concat
    (List.map
       (fun f =>
          omap (fun li => transactionOf rt order f li <$> cache !! variant_id li)
               (line_items f))
       (List.filter tracked fs)).

(** The fulfilments that the order payload carries. *)
Definition carried (order : ShopifyOrder) : list ShopifyFulfillment :=
  default [] (fulfillments order).

(** What a transaction says of the sale: the order, the line item, the
    barcode, the quantity and the status. *)
Record Line := {
  l_order : str;
  l_item : str;
  l_barcode : str;
  l_quantity : Z;
  l_status : str;
}.

Definition lineOf (t : Transaction) : Line :=
  {| l_order := Hanteo.orderId (core t);
     l_item := Hanteo.lineItemId (core t);
     l_barcode := Hanteo.barcode (core t);
     l_quantity := Hanteo.quantity (core t);
     l_status := status t |}.

(** A field that is there and is not empty. *)
Definition present {A} (x : option (list A)) : bool :=
  match x with
  | Some (_ :: _) => true
  | _ => false
  end.

(** A fulfilment has a tracking number when [tracking_number] is a
    non-empty string or [tracking_numbers] a non-empty array. *)
Definition hasTracking (f : ShopifyFulfillment) : bool :=
  present (tracking_number f) || present (tracking_numbers f).

(** The lines to expect of an order: for each fulfilment that has a
    tracking number, in payload order, one line for each of its line items
    whose variant is in the cache, with the barcode the cache holds for the
    variant and the quantity of the line item. *)
Definition expectedLines (cache : gmap Z Sync.AlbumProduct) (order : ShopifyOrder)
    (fs : list ShopifyFulfillment) : list Line :=
  flat_map
    (fun f =>
       if hasTracking f then
         flat_map
           (fun li =>
              match cache !! variant_id li with
              | Some p =>
                  [{| l_order := ofZ (o_id order);
                      l_item := ofZ (li_id li);
                      l_barcode := Sync.barcode p;
                      l_quantity := li_quantity li;
                      l_status := lit "pending" |}]
              | None => []
              end)
           (line_items f)
       else [])
    fs.

End OrdersSpec.

Module AppSpec.
Import Js Eff ErrorHandler Orders App.
Local Open Scope Z_scope.

(** A runtime for ASCII text only, at a fixed instant. *)
Definition asciiRuntime : Runtime :=
  {| toLowerCase := Text.lowerAscii;
     dateFullYear := BirthYearSpec.yearOnlyDate;
     currentYear := 2025;
     dateTime := fun _ => 1749690000000 |}.

Definition shipped (id : Z) (items : list ShopifyLineItem) : ShopifyFulfillment :=
  {| f_id := id; created_at := lit "2025-06-12T01:00:00Z";
     tracking_number := Some (lit "TRACK123"); tracking_numbers := None;
     line_items := items |}.

(** An order of two copies of [SyncSpec.sampleProduct] and of one item that
    is no album, shipped in one parcel. *)
Definition sampleOrder : ShopifyOrder :=
  {| o_id := 5555555555; o_name := lit "#1001";
     customer := None; shipping_address := None;
     fulfillments :=
       Some [shipped 4444444444
               [{| li_id := 7777777777; variant_id := 9876543210; li_quantity := 2 |};
                {| li_id := 7777777778; variant_id := 1111111111; li_quantity := 1 |}]] |}.

(** The same order as a listing without fulfilments delivers it. *)
Definition bareOrder : ShopifyOrder :=
  {| o_id := 5555555555; o_name := lit "#1001";
     customer := None; shipping_address := None; fulfillments := None |}.

(** An order in four parcels: the first has its tracking number in
    [tracking_numbers] only and holds three copies of the album and an item
    that is no album; the second has an empty [tracking_numbers] and the
    third an empty [tracking_number], each with copies of the album; the
    fourth is tracked and holds one more copy. *)
Definition mixedOrder : ShopifyOrder :=
  {| o_id := 5555555557; o_name := lit "#1003";
     customer := None; shipping_address := None;
     fulfillments :=
       Some [{| f_id := 4444444446; created_at := lit "2025-06-12T01:00:00Z";
                tracking_number := Some [];
                tracking_numbers := Some [lit "1Z999"];
                line_items :=
                  [{| li_id := 7777777781; variant_id := 9876543210;
                      li_quantity := 3 |};
                   {| li_id := 7777777782; variant_id := 1111111111;
                      li_quantity := 1 |}] |};
             {| f_id := 4444444447; created_at := lit "2025-06-12T02:00:00Z";
                tracking_number := None; tracking_numbers := Some [];
                line_items :=
                  [{| li_id := 7777777783; variant_id := 9876543210;
                      li_quantity := 5 |}] |};
             {| f_id := 4444444448; created_at := lit "2025-06-12T03:00:00Z";
                tracking_number := Some []; tracking_numbers := None;
                line_items :=
                  [{| li_id := 7777777784; variant_id := 9876543210;
                      li_quantity := 7 |}] |};
             shipped 4444444449
               [{| li_id := 7777777785; variant_id := 9876543210;
                   li_quantity := 1 |}]] |}.

(** An order with nothing to report: the parcel that was shipped holds no
    album, and the parcel that holds the album has no tracking number. *)
Definition quietOrder : ShopifyOrder :=
  {| o_id := 5555555558; o_name := lit "#1004";
     customer := None; shipping_address := None;
     fulfillments :=
       Some [shipped 4444444450
               [{| li_id := 7777777786; variant_id := 1111111111;
                   li_quantity := 2 |}];
             {| f_id := 4444444451; created_at := lit "2025-06-12T04:00:00Z";
                tracking_number := None; tracking_numbers := None;
                line_items :=
                  [{| li_id := 7777777787; variant_id := 9876543210;
                      li_quantity := 1 |}] |}] |}.

(** An order of [n] album items shipped in one parcel. *)
Definition bulkOrder (n : nat) : ShopifyOrder :=
  {| o_id := 5555555556; o_name := lit "#1002";
     customer := None; shipping_address := None;
     fulfillments :=
       Some [shipped 4444444445
               (replicate n {| li_id := 7777777779; variant_id := 9876543210;
                               li_quantity := 1 |})] |}.

(** A shop that lists [orders], serves [order] by id, and whose fulfilment
    endpoint is down; the catalogue and the reporting API are in order. *)
Definition shop (orders : list ShopifyOrder) (order : ShopifyOrder) : World :=
  {| syncWorld := SyncSpec.halfHourly;
     hanteoWorld := SubmitterSpec.acceptingAll;
     getFulfilledOrders := fun _ => inr orders;
     getOrderById := fun _ _ => inr order;
     getOrderFulfillments := fun _ _ =>
       inl (ShopifyError
              (lit "Shopify Error: Failed to fetch fulfillments for order 5555555555")) |}.

(** The same shop with the catalogue unreachable. *)
Definition shopWithoutCatalogue (orders : list ShopifyOrder) : World :=
  {| syncWorld := SyncSpec.unreachable;
     hanteoWorld := SubmitterSpec.acceptingAll;
     getFulfilledOrders := fun _ => inr orders;
     getOrderById := fun _ _ => inl (ShopifyError (lit "Shopify Error: down"));
     getOrderFulfillments := fun _ _ => inl (ShopifyError (lit "Shopify Error: down")) |}.

Definition started : State :=
  {| sync := SyncSpec.warm; hanteo := HanteoSpec.authenticated; calls := 0 |}.

(** The state once the Shopify side of a step is over. *)
Definition withSync (s : State) (ss : Sync.State) : State :=
  {| sync := ss; hanteo := hanteo s; calls := calls s |}.

Definition called (s : State) : State :=
  {| sync := sync s; hanteo := hanteo s; calls := S (calls s) |}.

(** Whether the cache is due for a refresh at the next check. *)
Definition refreshDue (w : Sync.World) (ss : Sync.State) : bool :=
  (Sync.clock w (Sync.ticks ss) - Sync.lastCacheUpdate ss >? Sync.CACHE_TTL)
  || (size (Sync.albumProductsCache ss) =? 0)%nat.

End AppSpec.

(* ================================================================== *)
(** * Theorems                                                         *)
(* ================================================================== *)

Module ValidatorsFacts.
Import Js Validators ValidatorsSpec.

Lemma trimStart_decompose s :
  ∃ pre, s = pre ++ trimStart s ∧ Forall (fun c => isWhiteSpace c = true) pre.
Proof.
  induction s as [|c s IH]; simpl.
  - exists []. split; [done | constructor].
  - destruct (isWhiteSpace c) eqn:Hc.
    + destruct IH as (pre & Heq & Hpre). exists (c :: pre). split.
      * simpl. by rewrite <- Heq.
      * by constructor.
    + exists []. split; [done | constructor].
Qed.

Lemma trimStart_head s c r : trimStart s = c :: r → isWhiteSpace c = false.
Proof.
  induction s as [|x s IH]; simpl; [done|].
  destruct (isWhiteSpace x) eqn:Hx; [done|]. intros [= -> _]. done.
Qed.

(** [trim] removes a run of white space at either end and nothing else. *)
Lemma trim_decompose s :
  ∃ pre post, s = pre ++ trim s ++ post
    ∧ Forall (fun c => isWhiteSpace c = true) pre
    ∧ Forall (fun c => isWhiteSpace c = true) post.
Proof.
  unfold trim, trimEnd.
  destruct (trimStart_decompose s) as (pre & Hs & Hpre).
  destruct (trimStart_decompose (rev (trimStart s))) as (q & Hq & Hqw).
  exists pre, (rev q). split; [|split]; [|done|].
  - rewrite Hs at 1. f_equal.
    rewrite <- rev_app_distr, <- Hq. by rewrite rev_involutive.
  - by apply Forall_rev.
Qed.

(** What is left neither starts nor ends with white space. *)
Lemma trim_ends s :
  (∀ c r, trim s = c :: r → isWhiteSpace c = false)
  ∧ (∀ r c, trim s = r ++ [c] → isWhiteSpace c = false).
Proof.
  split.
  - unfold trim, trimEnd. intros c r H.
    destruct (trimStart_decompose (rev (trimStart s))) as (q & Hq & Hqw).
    assert (Hts : trimStart s = rev (trimStart (rev (trimStart s))) ++ rev q).
    { rewrite <- rev_app_distr, <- Hq. by rewrite rev_involutive. }
    rewrite H in Hts. simpl in Hts.
    eapply trimStart_head. exact Hts.
  - unfold trim, trimEnd. intros r c H.
    apply (f_equal (@rev N)) in H. rewrite rev_involutive, rev_app_distr in H.
    simpl in H. by eapply trimStart_head.
Qed.

Lemma matchRep_Some c n s rest :
  matchRep c n s = Some rest ↔
  ∃ pre, s = pre ++ rest ∧ length pre = n ∧ Forall (fun x => c x = true) pre.
Proof.
  revert s. induction n as [|n IH]; intros s; simpl.
  - split.
    + intros [= ->]. exists []. by repeat split.
    + intros (pre & -> & Hlen & _). by destruct pre.
  - destruct s as [|x s].
    + split; [done|]. intros ([|y pre] & Heq & Hlen & _); simplify_eq/=.
    + destruct (c x) eqn:Hx.
      * rewrite IH. split.
        -- intros (pre & -> & <- & Hall). exists (x :: pre). repeat split; [done..|by constructor].
        -- intros ([|y pre] & Heq & Hlen & Hall); simplify_eq/=.
           inversion Hall; subst. by exists pre.
      * split; [done|]. intros ([|y pre] & Heq & Hlen & Hall); simplify_eq/=.
        inversion Hall; congruence.
Qed.

Lemma test_nil s : test [] s = true ↔ s = [].
Proof. by destruct s. Qed.

Lemma test_cons c n p s :
  test ((c, n) :: p) s = true ↔
  ∃ pre rest, s = pre ++ rest ∧ length pre = n
    ∧ Forall (fun x => c x = true) pre ∧ test p rest = true.
Proof.
  simpl. destruct (matchRep c n s) as [rest|] eqn:Hm.
  - apply matchRep_Some in Hm as (pre & -> & Hlen & Hall). split.
    + intros Ht. by exists pre, rest.
    + intros (pre' & rest' & Heq & Hlen' & Hall' & Ht).
      assert (pre' = pre ∧ rest' = rest) as [-> ->]; [|done].
      apply app_inj_1 in Heq as [? ?]; [by subst|lia].
  - split; [done|]. intros (pre & rest & -> & Hlen & Hall & _).
    assert (matchRep c n (pre ++ rest) = Some rest) as Hs.
    { apply matchRep_Some. by exists pre. }
    congruence.
Qed.

Lemma test_numeric n s : test [(isDigit, n)] s = true ↔ numericOfLength n s.
Proof.
  rewrite test_cons. unfold numericOfLength, allDigits. split.
  - intros (pre & rest & -> & Hlen & Hall & Ht%test_nil). subst rest.
    by rewrite app_nil_r.
  - intros [Hlen Hall]. exists s, []. by rewrite app_nil_r.
Qed.

Lemma test_ISBN10 s : test ISBN10 s = true ↔ isbn10Form s.
Proof.
  unfold ISBN10, isbn10Form. rewrite test_cons. split.
  - intros (pre & rest & -> & Hlen & Hall & Ht).
    apply test_cons in Ht as (x & rest' & -> & Hx & Hxall & ->%test_nil).
    destruct x as [|c [|? ?]]; simplify_eq/=.
    exists pre, c. split; [done|]. split; [done|].
    inversion Hxall as [|? ? Hc _]; subst. unfold digitOrX in Hc.
    apply orb_true_iff in Hc as [Hc|Hc]; [by left|right]. by apply N.eqb_eq.
  - intros (body & c & -> & [Hlen Hall] & Hc). exists body, [c].
    split; [done|]. split; [done|]. split; [done|].
    apply test_cons. exists [c], []. split; [done|]. split; [done|]. split; [|done].
    constructor; [|constructor]. unfold digitOrX.
    destruct Hc as [->| ->]; [done|]. by rewrite orb_true_r.
Qed.

Lemma test_ISBN13 s : test ISBN13 s = true ↔ isbn13Form s.
Proof.
  unfold ISBN13, isbn13Form. split.
  - intros Ht.
    apply test_cons in Ht as (x1 & r1 & -> & Hl1 & Ha1 & Ht).
    apply test_cons in Ht as (x2 & r2 & -> & Hl2 & Ha2 & Ht).
    apply test_cons in Ht as (x3 & r3 & -> & Hl3 & Ha3 & Ht).
    apply test_numeric in Ht.
    destruct x1 as [|a [|? ?]]; simplify_eq/=.
    destruct x2 as [|b [|? ?]]; simplify_eq/=.
    destruct x3 as [|d [|? ?]]; simplify_eq/=.
    inversion Ha1 as [|? ? Ha _]; inversion Ha2 as [|? ? Hb _];
      inversion Ha3 as [|? ? Hd _]; subst.
    unfold isChar in Ha, Hb. apply N.eqb_eq in Ha, Hb. subst a b.
    exists d, r3. split; [done|]. split; [|done].
    unfold oneOf in Hd. apply orb_true_iff in Hd as [Hd|Hd]; apply N.eqb_eq in Hd; auto.
  - intros (d & rest & -> & Hd & Hnum).
    apply test_cons. exists [57%N], ([55%N; d] ++ rest).
    split; [done|]. split; [done|]. split; [by repeat constructor|].
    apply test_cons. exists [55%N], ([d] ++ rest).
    split; [done|]. split; [done|]. split; [by repeat constructor|].
    apply test_cons. exists [d], rest.
    split; [done|]. split; [done|]. split.
    + constructor; [|constructor]. unfold oneOf. destruct Hd as [-> | ->]; done.
    + by apply test_numeric.
Qed.

Lemma validBarcodeText_nonempty t : validBarcodeText t → t ≠ [].
Proof.
  intros H ->. destruct H as [[H _]|[[H _]|[[H _]|[H|H]]]]; try done.
  - destruct H as (body & c & H & _). by destruct body.
  - destruct H as (d & rest & H & _). done.
Qed.

Lemma patterns_valid t :
  existsb (fun p => test p t) BARCODE_PATTERNS = true ↔ validBarcodeText t.
Proof.
  unfold BARCODE_PATTERNS, validBarcodeText. cbn [existsb].
  rewrite !orb_true_iff.
  unfold EAN13, EAN8, UPC. rewrite !test_numeric, test_ISBN10, test_ISBN13.
  intuition discriminate.
Qed.

Lemma digit_not_space c : isDigit c = true → isWhiteSpace c = false.
Proof.
  unfold isDigit, isWhiteSpace. intros [H1 H2]%andb_true_iff.
  apply N.leb_le in H1, H2.
  repeat (apply orb_false_iff; split);
    try (apply N.eqb_neq; lia).
  apply andb_false_iff. left. apply N.leb_gt. lia.
Qed.

Lemma validBarcodeText_no_space t c :
  validBarcodeText t → c ∈ t → isWhiteSpace c = false.
Proof.
  assert (Hd : ∀ l, allDigits l → c ∈ l → isWhiteSpace c = false).
  { intros l Hl Hin. apply digit_not_space.
    unfold allDigits in Hl. rewrite Forall_forall in Hl. by apply Hl. }
  intros H Hin. destruct H as [[_ H]|[[_ H]|[[_ H]|[H|H]]]]; eauto.
  - destruct H as (body & x & -> & [_ Hb] & Hx).
    apply elem_of_app in Hin as [Hin|Hin]; [eauto|].
    apply list_elem_of_singleton in Hin as ->.
    destruct Hx as [Hx| ->]; [by apply digit_not_space|done].
  - destruct H as (d & rest & -> & Hd' & [_ Hr]).
    cbn [app] in Hin. rewrite !elem_of_cons in Hin.
    destruct Hin as [->|[->|[->|Hin]]]; try done; eauto.
    by destruct Hd' as [-> | ->].
Qed.

(** What [isValidBarcode] makes of the value that [trim] leaves. *)
Lemma isValidBarcode_trimmed (s : str) :
  isValidBarcode s = true ↔ validBarcodeText (trim s).
Proof.
  unfold isValidBarcode. destruct s as [|c s].
  - split; [done|]. by intros H%validBarcodeText_nonempty.
  - destruct (trim (c :: s)) as [|x t] eqn:Ht.
    + split; [done|]. by intros H%validBarcodeText_nonempty.
    + simpl length. cbn [Nat.eqb]. apply patterns_valid.
Qed.

Lemma isWhiteSpace_spec (c : N) : isWhiteSpace c = true ↔ c ∈ whiteSpaceUnits.
Proof.
  unfold isWhiteSpace, whiteSpaceUnits.
  rewrite !orb_true_iff, andb_true_iff, !N.eqb_eq, !N.leb_le.
  rewrite !elem_of_cons, elem_of_nil. lia.
Qed.

Lemma whiteSpace_spec (t : str) :
  whiteSpace t ↔ Forall (fun c => isWhiteSpace c = true) t.
Proof.
  unfold whiteSpace. apply Forall_iff. intros c. symmetry. apply isWhiteSpace_spec.
Qed.

Lemma trimStart_whiteSpace_app (pre u : str) :
  Forall (fun c => isWhiteSpace c = true) pre → trimStart (pre ++ u) = trimStart u.
Proof.
  induction 1 as [|c pre Hc _ IH]; [done|]. cbn [app trimStart]. by rewrite Hc.
Qed.

Lemma trimStart_keeps (c : N) (u : str) :
  isWhiteSpace c = false → trimStart (c :: u) = c :: u.
Proof. intros Hc. cbn [trimStart]. by rewrite Hc. Qed.

(** Trimming takes the padding off a text that neither starts nor ends with
    white space, and nothing more. *)
Lemma trim_padded (pre t post : str) :
  Forall (fun c => isWhiteSpace c = true) pre →
  Forall (fun c => isWhiteSpace c = true) post →
  t ≠ [] →
  (∀ c, c ∈ t → isWhiteSpace c = false) →
  trim (pre ++ t ++ post) = t.
Proof.
  intros Hpre Hpost Hne Ht. unfold trim, trimEnd.
  rewrite trimStart_whiteSpace_app by done.
  destruct t as [|c t]; [done|]. cbn [app].
  rewrite trimStart_keeps by (apply Ht; left).
  change (c :: t ++ post) with ((c :: t) ++ post).
  rewrite rev_app_distr, trimStart_whiteSpace_app by (by apply Forall_rev).
  destruct (rev (c :: t)) as [|x r] eqn:Hr.
  { apply (f_equal (@rev N)) in Hr. by rewrite rev_involutive in Hr. }
  rewrite trimStart_keeps.
  - rewrite <- Hr. apply rev_involutive.
  - apply Ht. apply list_elem_of_In, in_rev. rewrite Hr. by left.
Qed.

(** C7.  For every string, [isValidBarcode] answers [true] exactly when the
    string is, between a run of white space before it and a run of white
    space after it (either may be empty), a run of 8, 12 or 13 digits, or
    the ISBN-10 form (nine digits, then a digit or [X]) or the ISBN-13 form
    ([978] or [979], then ten digits); it answers [false] for everything
    else, and in particular whenever a white-space character stands
    between two parts that are not all white space. *)
Theorem isValidBarcode_spec (s : str) :
  (isValidBarcode s = true ↔ ∃ t, padded s t ∧ validBarcodeText t)
  ∧ (isValidBarcode s = false ↔ ¬ ∃ t, padded s t ∧ validBarcodeText t)
  ∧ (∀ a c b, s = a ++ c :: b → c ∈ whiteSpaceUnits →
       ¬ whiteSpace a → ¬ whiteSpace b → isValidBarcode s = false).
Proof.
  assert (Hiff : isValidBarcode s = true ↔ ∃ t, padded s t ∧ validBarcodeText t).
  { rewrite isValidBarcode_trimmed. split.
    - intros Hv. exists (trim s). split; [|done].
      destruct (trim_decompose s) as (pre & post & Hs & Hpre & Hpost).
      exists pre, post. by rewrite !whiteSpace_spec.
    - intros (t & (pre & post & -> & Hpre & Hpost) & Hv).
      rewrite whiteSpace_spec in Hpre, Hpost.
      rewrite trim_padded; try done.
      + by apply validBarcodeText_nonempty.
      + intros c Hc. by eapply validBarcodeText_no_space. }
  split; [done|]. split.
  - rewrite <- Hiff. by destruct (isValidBarcode s).
  - intros a c b Hs Hc Ha Hb. destruct (isValidBarcode s) eqn:Hv; [|done]. exfalso.
    destruct Hiff as [Hf _].
    destruct (Hf eq_refl) as (t & (pre & post & Hs' & Hpre & Hpost) & Ht).
    rewrite Hs in Hs'. symmetry in Hs'.
    apply app_eq_inv in Hs' as [(k & Hk1 & Hk2)|(k & Hk1 & Hk2)].
    + (* [a] is a piece of the leading white space *)
      apply Ha. rewrite Hk1 in Hpre. by apply Forall_app in Hpre as [Hpre _].
    + apply app_eq_inv in Hk2 as [(k' & Hk3 & Hk4)|(k' & Hk3 & Hk4)].
      * destruct k' as [|x k'].
        -- (* [c] is the first unit of the trailing white space *)
           cbn [app] in Hk4. rewrite <- Hk4 in Hpost. apply Hb.
           by inversion Hpost.
        -- (* [c] stands inside the text *)
           injection Hk4 as -> Hk4.
           assert (isWhiteSpace x = false) as Hx.
           { eapply validBarcodeText_no_space; [exact Ht|].
             rewrite Hk3. apply elem_of_app. right. left. }
           apply isWhiteSpace_spec in Hc. congruence.
      * (* [b] is a piece of the trailing white space *)
        apply Hb. rewrite Hk4 in Hpost. apply Forall_app in Hpost as [_ Hpost].
        by inversion Hpost.
Qed.


(** The cases of the repository's own test suite. *)
Example isValidBarcode_accepts :
  List.map (fun b => isValidBarcode (lit b))
    ["8809633189505"; "12345678"; "123456789012"; "123456789X";
     "9781234567890"; " 8809633189505 "]%string
  = [true; true; true; true; true; true].
Proof. reflexivity. Qed.

Example isValidBarcode_rejects :
  List.map (fun b => isValidBarcode (lit b))
    [""; " "; "123"; "12345678901234"; "ABC123456789"; "8809633 189505"]%string
  = [false; false; false; false; false; false].
Proof. reflexivity. Qed.

End ValidatorsFacts.

Module BirthYearFacts.
Import Js Validators Sync BirthYearSpec.
Local Open Scope Z_scope.

(** Whatever year the [Date] constructor finds is returned as it is. *)
Lemma date_path_not_validated dateFullYear currentYear (s : str) (y : Z) :
  s ≠ [] →
  dateFullYear s = Some y →
  extractBirthYear dateFullYear currentYear (Some s) = Some (ofZ y).
Proof. intros Hne Hd. destruct s; [done|]. cbn. by rewrite Hd. Qed.

Lemma date_path_not_validated_witness :
  extractBirthYear yearOnlyDate 2026 (Some (lit "2030")) = Some (lit "2030").
Proof.
  exact (date_path_not_validated yearOnlyDate 2026 (lit "2030") 2030
           ltac:(discriminate) eq_refl).
Defined.


(** A year found by the tag pattern is returned as it is. *)
Lemma tag_year_not_validated dateFullYear currentYear (t year : str) n :
  t ≠ [] →
  search birthYearAt t = Some year →
  extractBirthYearFromCustomer dateFullYear currentYear
    {| ctags := Some t; note := n |} = Some year.
Proof.
  intros Hne Hs. destruct t; [done|].
  unfold extractBirthYearFromCustomer. cbn [ctags truthy]. by rewrite Hs.
Qed.

(** C8 (fails on the code).  A year is returned without the range check on
    two of the three paths: [extractBirthYear] hands back the year of any
    string that [new Date] accepts ("1899" and "2030", which the
    repository's tests expect to be rejected), and
    [extractBirthYearFromCustomer] hands back the four digits that follow
    a [birth_year] tag, whatever they are. *)
Theorem birth_year_returned_unvalidated :
  extractBirthYear yearOnlyDate 2026 (Some (lit "1899")) = Some (lit "1899")
  ∧ extractBirthYear yearOnlyDate 2026 (Some (lit "2030")) = Some (lit "2030")
  ∧ ∀ dateFullYear currentYear,
      extractBirthYearFromCustomer dateFullYear currentYear
        {| ctags := Some (lit "vip,birth_year:3000"); note := None |}
      = Some (lit "3000").
Proof. split_and!; [reflexivity..|]. intros. reflexivity. Qed.

End BirthYearFacts.

Module HanteoFacts.
Import Js Eff ErrorHandler Validators Hanteo HanteoSpec.
Local Open Scope Z_scope.

Lemma sendSalesData_unfold w fuel transactions :
  sendSalesData w fuel transactions =
  bind (ensureAuthenticated w) (fun _ =>
  if (length transactions =? 0)%nat then ret emptyResponse
  else
    bind (mapM (convertToHanteoFormat w) transactions) (fun salesData =>
    if Z.of_nat (length salesData) >? maxBatchSize then
      throw (newHanteoError
               (lit "Batch size " ++ ofZ (Z.of_nat (length salesData))
                ++ lit " exceeds maximum " ++ ofZ maxBatchSize)
               (Some INVALID_DATA) None)
    else
      tryCatch
        (bind (retryWithBackoff (fun ms => emit (EvBackoff ms))
                     (postSales w salesData) retryAttempts retryDelay) (fun result =>
         match partialFailData result with
         | Some fd =>
             throw (newHanteoError (lit "Partial success - some records failed")
                      (Some (code result)) (Some fd))
         | None =>
             if negb (code result =? SUCCESS)
                && negb (code result =? PARTIAL_SUCCESS) then
               throw (newHanteoError
                        (orElse (message result)
                                (lit "Sales data submission failed"))
                        (Some (code result)) None)
             else ret result
         end))
        (fun error =>
           if isTokenFailure error then
             bind (setToken None) (fun _ =>
             bind (authenticate w) (fun _ =>
             match fuel with
             | O => diverge
             | S fuel' => sendSalesData w fuel' transactions
             end))
           else throw error))).
Proof. destruct fuel; reflexivity. Qed.

(** What [authenticate] does, case by case on the reply. *)
Lemma authenticate_run w s :
  authenticate w s =
  let s1 := {| token := token s; ticks := ticks s; posts := S (posts s);
               trace := trace s ++ [EvAuth] |} in
  match authHttp w (posts s) with
  | Resolved r =>
      match tCode r =? SUCCESS, tResultData r with
      | true, Some rd =>
          (Returned tt,
           {| token := Some {| accessToken := access_token rd;
                               tokenType := token_type rd;
                               expiresAt := clock w (ticks s) + expires_in rd * 1000 |};
              ticks := S (ticks s); posts := S (posts s);
              trace := trace s ++ [EvAuth] |})
      | _, _ => (Thrown authFailure, s1)
      end
  | Rejected _ => (Thrown authFailure, s1)
  end.
Proof.
  unfold authenticate, tryCatch, bind, post. simpl.
  destruct (authHttp w (posts s)) as [r|e]; [|done].
  destruct (tCode r =? SUCCESS); [|done].
  destruct (tResultData r); done.
Qed.

Lemma isTokenValid_run w s :
  isTokenValid w s =
  (Returned (tokenValidAt w s),
   match token s with
   | None => s
   | Some _ => {| token := token s; ticks := S (ticks s); posts := posts s;
                  trace := trace s |}
   end).
Proof.
  destruct s as [[tok|] tk ps tr]; reflexivity.
Qed.

Lemma ensureAuthenticated_valid w s :
  tokenValidAt w s = true →
  ensureAuthenticated w s =
  (Returned tt, {| token := token s; ticks := S (ticks s); posts := posts s;
                   trace := trace s |}).
Proof.
  intros Hv. unfold ensureAuthenticated, bind. rewrite isTokenValid_run, Hv. simpl.
  unfold tokenValidAt in Hv. destruct (token s); [done | discriminate].
Qed.

Lemma ensureAuthenticated_invalid w s :
  tokenValidAt w s = false →
  ensureAuthenticated w s =
  authenticate w (match token s with
   | None => s
   | Some _ => {| token := token s; ticks := S (ticks s); posts := posts s;
                  trace := trace s |}
   end).
Proof.
  intros Hv. unfold ensureAuthenticated, bind. by rewrite isTokenValid_run, Hv.
Qed.

(** C3 (amended).  With an empty list [sendSalesData] never posts a
    submission.  While the stored token is valid it returns the zero-count
    success outcome and sends nothing at all; otherwise it performs the
    authentication handshake first, and returns the zero-count success
    outcome if the handshake succeeds and the authentication error if it
    does not. *)
Theorem sendSalesData_empty w fuel s :
  let '(r, s') := sendSalesData w fuel [] s in
  (trace s' = trace s ∨ trace s' = trace s ++ [EvAuth])
  ∧ (tokenValidAt w s = true →
       r = Returned emptyResponse ∧ trace s' = trace s ∧ posts s' = posts s)
  ∧ (tokenValidAt w s = false →
       trace s' = trace s ++ [EvAuth] ∧ posts s' = S (posts s)
       ∧ r = if handshakeSucceeds w (posts s) then Returned emptyResponse
             else Thrown authFailure).
Proof.
  rewrite sendSalesData_unfold. unfold bind at 1. simpl.
  destruct (tokenValidAt w s) eqn:Hv.
  - rewrite (ensureAuthenticated_valid _ _ Hv). simpl. repeat split; auto; discriminate.
  - rewrite (ensureAuthenticated_invalid _ _ Hv), authenticate_run.
    set (s0 := match token s with None => s | Some _ => _ end).
    assert (trace s0 = trace s ∧ posts s0 = posts s) as [-> ->].
    { subst s0. by destruct (token s). }
    unfold handshakeSucceeds.
    destruct (authHttp w (posts s)) as [r|e]; simpl.
    + destruct (tCode r =? SUCCESS); simpl; [destruct (tResultData r); simpl|];
        repeat split; auto; discriminate.
    + repeat split; auto; discriminate.
Qed.

Lemma sendSalesData_empty_witness :
  fst (sendSalesData alwaysUnauthorized 0 [] authenticated) = Returned emptyResponse
  ∧ trace (snd (sendSalesData alwaysUnauthorized 0 [] authenticated))
    = trace authenticated.
Proof.
  pose proof (sendSalesData_empty alwaysUnauthorized 0 authenticated) as H.
  destruct (sendSalesData alwaysUnauthorized 0 [] authenticated) as [r s'].
  cbn [fst snd]. destruct H as (_ & H & _).
  destruct (H eq_refl) as (Hr & Htr & _). by split.
Defined.

(** C3 as stated fails: with no token stored, the empty submission performs
    the handshake. *)
Lemma empty_submission_handshake :
  ¬ emptySubmissionIsOffline
      {| clock := fun _ => 0; authHttp := fun _ => tokenOk;
         salesHttp := fun _ _ => unauthorized |} 0 fresh.
Proof. unfold emptySubmissionIsOffline. vm_compute. intros [_ H]. discriminate. Qed.


Lemma count_snoc kind tr ev :
  count kind (tr ++ [ev]) = (count kind tr + if kind ev then 1 else 0)%nat.
Proof.
  unfold count. rewrite List.filter_app, length_app. simpl.
  by destruct (kind ev).
Qed.

Lemma mapM_length {A B} (f : A → M B) xs s ys s' :
  mapM f xs s = (Returned ys, s') → length ys = length xs.
Proof.
  revert s ys s'. induction xs as [|x xs IH]; intros s ys s'; simpl.
  - by intros [= <- _].
  - unfold bind at 1. destruct (f x s) as [[y| |] s1]; try done.
    unfold bind at 1. destruct (mapM f xs s1) as [[zs| |] s2] eqn:Hm; try done.
    intros [= <- _]. simpl. f_equal. eauto.
Qed.

(** C10.  When the reply to the submission carries the partial-success
    code 101 and no failure map ([resultData] absent, or present without
    [failData]), [sendSalesData] returns that reply to its caller instead of
    throwing. *)
Theorem partial_success_without_failData w fuel txs s s0 salesData s1 result s2 :
  txs ≠ [] →
  Z.of_nat (length txs) ≤ maxBatchSize →
  ensureAuthenticated w s = (Returned tt, s0) →
  mapM (convertToHanteoFormat w) txs s0 = (Returned salesData, s1) →
  retryWithBackoff (fun ms => emit (EvBackoff ms)) (postSales w salesData)
                   retryAttempts retryDelay s1 = (Returned result, s2) →
  code result = PARTIAL_SUCCESS →
  (∀ rd, resultData result = Some rd → failData rd = None) →
  sendSalesData w fuel txs s = (Returned result, s2).
Proof.
  intros Hne Hlen Hauth Hconv Hpost Hcode Hfail.
  rewrite sendSalesData_unfold. unfold bind at 1. rewrite Hauth.
  destruct txs as [|tx txs]; [done|]. cbn [length Nat.eqb].
  unfold bind at 1. rewrite Hconv.
  rewrite (mapM_length _ _ _ _ _ Hconv).
  destruct (Z.of_nat (length (tx :: txs)) >? maxBatchSize) eqn:Hgt; [lia|].
  unfold tryCatch, bind. rewrite Hpost.
  unfold partialFailData. rewrite Hcode, Z.eqb_refl.
  destruct (resultData result) as [rd|] eqn:Hrd.
  - rewrite (Hfail rd eq_refl). done.
  - done.
Qed.

Lemma partial_success_without_failData_witness :
  ∃ s2,
    sendSalesData partialWithoutMap 0 [sampleTx "order-1" "item-1"] authenticated
    = (Returned {| code := 101; message := Some (lit "Partial success");
                   resultData := Some {| requestCount := 1; successCount := 0;
                                         failCount := 1; failData := None |} |},
       s2).
Proof.
  eexists.
  eapply (partial_success_without_failData partialWithoutMap 0
            [sampleTx "order-1" "item-1"] authenticated).
  - discriminate.
  - unfold maxBatchSize. cbn. lia.
  - vm_compute. reflexivity.
  - vm_compute. reflexivity.
  - vm_compute. reflexivity.
  - reflexivity.
  - intros rd [= <-]. reflexivity.
Defined.

(** ** Token failures *)

(** What the [catch] block does with a token failure: the stored token is
    dropped, the handshake is repeated, and [sendSalesData] calls itself. *)
Lemma token_failure_reauthenticates w fuel txs s s0 salesData s1 error s2 :
  txs ≠ [] →
  Z.of_nat (length txs) ≤ maxBatchSize →
  ensureAuthenticated w s = (Returned tt, s0) →
  mapM (convertToHanteoFormat w) txs s0 = (Returned salesData, s1) →
  retryWithBackoff (fun ms => emit (EvBackoff ms)) (postSales w salesData)
                   retryAttempts retryDelay s1 = (Thrown error, s2) →
  isTokenFailure error = true →
  sendSalesData w fuel txs s
  = bind (authenticate w)
         (fun _ => match fuel with
                   | O => diverge
                   | S fuel' => sendSalesData w fuel' txs
                   end)
         {| token := None; ticks := ticks s2; posts := posts s2;
            trace := trace s2 |}.
Proof.
  intros Hne Hlen Hauth Hconv Hpost Htok.
  rewrite sendSalesData_unfold. unfold bind at 1. rewrite Hauth.
  destruct txs as [|tx txs]; [done|]. cbn [length Nat.eqb].
  unfold bind at 1. rewrite Hconv.
  rewrite (mapM_length _ _ _ _ _ Hconv).
  destruct (Z.of_nat (length (tx :: txs)) >? maxBatchSize) eqn:Hgt; [lia|].
  unfold tryCatch. unfold bind at 1. rewrite Hpost, Htok. reflexivity.
Qed.

(** A token code that arrives in the body of a reply the HTTP layer
    accepted is thrown to the caller as it is: the error made from it has no
    [response], so the [catch] block does not take it for a token failure. *)
Lemma token_code_in_accepted_reply w fuel txs s s0 salesData s1 result s2 :
  txs ≠ [] →
  Z.of_nat (length txs) ≤ maxBatchSize →
  ensureAuthenticated w s = (Returned tt, s0) →
  mapM (convertToHanteoFormat w) txs s0 = (Returned salesData, s1) →
  retryWithBackoff (fun ms => emit (EvBackoff ms)) (postSales w salesData)
                   retryAttempts retryDelay s1 = (Returned result, s2) →
  code result = INVALID_TOKEN ∨ code result = TOKEN_EXPIRED →
  sendSalesData w fuel txs s
  = (Thrown (newHanteoError
               (orElse (message result) (lit "Sales data submission failed"))
               (Some (code result)) None),
     s2).
Proof.
  intros Hne Hlen Hauth Hconv Hpost Hcode.
  rewrite sendSalesData_unfold. unfold bind at 1. rewrite Hauth.
  destruct txs as [|tx txs]; [done|]. cbn [length Nat.eqb].
  unfold bind at 1. rewrite Hconv.
  rewrite (mapM_length _ _ _ _ _ Hconv).
  destruct (Z.of_nat (length (tx :: txs)) >? maxBatchSize) eqn:Hgt; [lia|].
  unfold tryCatch, bind. rewrite Hpost.
  unfold partialFailData.
  by destruct Hcode as [Hc|Hc]; rewrite Hc.
Qed.

Lemma convert_all_run w txs s :
  ∃ salesData,
    mapM (convertToHanteoFormat w) txs s =
      (Returned salesData,
       {| token := token s; ticks := (ticks s + 2 * length txs)%nat;
          posts := posts s; trace := trace s |})
    ∧ length salesData = length txs.
Proof.
  revert s. induction txs as [|tx txs IH]; intros s.
  - exists []. split; [|done]. destruct s. unfold mapM, ret. cbn [ticks token posts trace length]. do 2 f_equal. lia.
  - cbn [mapM]. unfold bind at 1.
    unfold convertToHanteoFormat at 1. unfold bind at 1 2, now, ret. cbn [ticks token posts trace].
    destruct (IH {| token := token s; ticks := S (S (ticks s)); posts := posts s;
                    trace := trace s |}) as (ys & Hys & Hlen).
    unfold bind. rewrite Hys. cbn [ticks token posts trace].
    eexists (_ :: ys). split.
    + f_equal. f_equal. cbn [length]. lia.
    + cbn [length]. by rewrite Hlen.
Qed.

(** With a token in place, the four attempts of [retryWithBackoff] against
    [alwaysUnauthorized] all fail, and the last failure is thrown. *)
Lemma retry_unauthorized salesData tok tk ps tr :
  ∃ tr',
    retryWithBackoff (fun ms => emit (EvBackoff ms))
      (postSales alwaysUnauthorized salesData) retryAttempts retryDelay
      {| token := Some tok; ticks := tk; posts := ps; trace := tr |}
    = (Thrown (AxiosError (lit "Request failed with status code 401")
                          (Some {| status := 401; dataCode := None |})),
       {| token := Some tok; ticks := tk; posts := S (S (S (S ps)));
          trace := tr' |})
    ∧ count isAuth tr' = count isAuth tr
    ∧ count isSales tr' = (count isSales tr + 4)%nat.
Proof.
  set (submit := EvSales (accessToken tok) salesData).
  exists (tr ++ [submit] ++ [EvBackoff 1000] ++ [submit] ++ [EvBackoff 2000]
             ++ [submit] ++ [EvBackoff 4000] ++ [submit]).
  split.
  - cbv -[app lit]. by rewrite <- !app_assoc.
  - rewrite !app_assoc, !count_snoc. cbn [isAuth isSales submit]. lia.
Qed.

Lemma ensureAuthenticated_token_issued s :
  ∃ tok tk tr',
    ensureAuthenticated alwaysUnauthorized s =
      (Returned tt, {| token := Some tok; ticks := tk; posts := (posts s + length tr' - length (trace s))%nat; trace := tr' |})
    ∧ (count isAuth tr' ≥ count isAuth (trace s))%nat
    ∧ count isSales tr' = count isSales (trace s).
Proof.
  destruct (tokenValidAt alwaysUnauthorized s) eqn:Hv.
  - rewrite (ensureAuthenticated_valid _ _ Hv).
    unfold tokenValidAt in Hv. destruct (token s) as [tok|]; [|done].
    exists tok, (S (ticks s)), (trace s). split; [|split; [lia|done]].
    do 2 f_equal. lia.
  - rewrite (ensureAuthenticated_invalid _ _ Hv), authenticate_run.
    cbn [authHttp alwaysUnauthorized tokenOk tCode tResultData Z.eqb SUCCESS Pos.eqb].
    eexists _, _, _. split.
    + f_equal. f_equal. destruct (token s); cbn [posts trace]; rewrite length_app; cbn [length]; lia.
    + rewrite !count_snoc. cbn [isAuth isSales]. destruct (token s); cbn [trace]; lia.
Qed.

Lemma authenticate_token_issued tk ps tr t0 :
  ∃ tok,
    authenticate alwaysUnauthorized {| token := t0; ticks := tk; posts := ps; trace := tr |}
    = (Returned tt, {| token := Some tok; ticks := S tk; posts := S ps;
                       trace := tr ++ [EvAuth] |}).
Proof. rewrite authenticate_run. eexists. reflexivity. Qed.

(** One turn of [sendSalesData] against [alwaysUnauthorized]: it ends in the
    recursive call of the [catch] block, after one more handshake and four
    more submissions. *)
Lemma unauthorized_round fuel tx s :
  ∃ s1,
    sendSalesData alwaysUnauthorized fuel [tx] s =
      match fuel with
      | O => diverge s1
      | S fuel' => sendSalesData alwaysUnauthorized fuel' [tx] s1
      end
    ∧ (count isAuth (trace s1) ≥ count isAuth (trace s) + 1)%nat
    ∧ count isSales (trace s1) = (count isSales (trace s) + 4)%nat.
Proof.
  rewrite sendSalesData_unfold.
  destruct (ensureAuthenticated_token_issued s) as (tok & tk & tr1 & Hens & Ha1 & Hs1).
  unfold bind at 1. rewrite Hens. cbn [length Nat.eqb]. cbv beta iota.
  unfold bind at 1.
  match goal with |- context [mapM _ _ ?st] =>
    destruct (convert_all_run alwaysUnauthorized [tx] st) as (sd & Hsd & Hlen) end.
  rewrite Hsd, Hlen. cbv beta iota.
  change (Z.of_nat (length [tx]) >? maxBatchSize) with false. cbv iota.
  cbn [token ticks posts trace].
  unfold tryCatch at 1. unfold bind at 1.
  match goal with |- context [retryWithBackoff _ _ _ _ {| token := _; ticks := ?k; posts := ?p; trace := _ |}] =>
    destruct (retry_unauthorized sd tok k p tr1) as (tr2 & Hretry & Ha2 & Hs2) end.
  rewrite Hretry. cbv beta iota.
  change (isTokenFailure _) with true. cbv iota.
  unfold bind at 1, setToken at 1, modify at 1. cbn [token ticks posts trace]. cbv beta iota.
  unfold bind at 1.
  match goal with |- context [authenticate _ {| token := ?t; ticks := ?k; posts := ?p; trace := ?r |}] =>
    destruct (authenticate_token_issued k p r t) as (tok' & Hauth) end.
  rewrite Hauth. cbv beta iota.
  eexists. split.
  - destruct fuel; reflexivity.
  - cbn [trace]. rewrite !count_snoc. cbn [isAuth isSales]. lia.
Qed.

(** C1 (fails on the code).  Against [alwaysUnauthorized] the error is never
    surfaced: whatever depth of recursion is allowed, [sendSalesData] is
    still re-authenticating and resubmitting when the depth is used up,
    after at least [fuel + 1] handshakes and exactly [4 * (fuel + 1)]
    submission POSTs. *)
Theorem reauthentication_unbounded (fuel : nat) (tx : SalesTransaction) (s : State) :
  let '(r, s') := sendSalesData alwaysUnauthorized fuel [tx] s in
  r = OutOfFuel
  ∧ (count isAuth (trace s') ≥ count isAuth (trace s) + S fuel)%nat
  ∧ (count isSales (trace s') = count isSales (trace s) + 4 * S fuel)%nat.
Proof.
  revert s. induction fuel as [|fuel IH]; intros s.
  - destruct (unauthorized_round 0 tx s) as (s1 & -> & Ha & Hs). cbn. 
    split; [done|]. lia.
  - destruct (unauthorized_round (S fuel) tx s) as (s1 & -> & Ha & Hs).
    specialize (IH s1). destruct (sendSalesData alwaysUnauthorized fuel [tx] s1) as [r s'].
    destruct IH as (-> & Ha' & Hs'). split; [done|]. lia.
Qed.


(** Two token failures in a row are answered with two handshakes and a
    third round of submission, which here succeeds: nine submission POSTs
    (each 401 is also repeated by [retryWithBackoff]) and two handshakes. *)
Example two_reauthentication_rounds :
  let '(r, s') :=
    sendSalesData unauthorizedTwice 2 [sampleTx "order-1" "item-1"]
      {| token := Some {| accessToken := lit "token-0"; tokenType := lit "bearer";
                          expiresAt := 3600000 |};
         ticks := 0; posts := 0; trace := [] |} in
  r = Returned {| code := 100; message := Some (lit "Success");
                  resultData := Some {| requestCount := 1; successCount := 1;
                                        failCount := 0; failData := None |} |}
  ∧ count isAuth (trace s') = 2%nat
  ∧ count isSales (trace s') = 9%nat.
Proof. vm_compute. repeat split. Qed.

(** ** Chunks *)

Lemma chunksFuel_nil {A} fuel c : chunksFuel fuel c (@nil A) = [].
Proof. by destruct fuel. Qed.

Lemma chunksFuel_enough {A} fuel c (xs : list A) :
  (1 ≤ c)%nat → (length xs ≤ fuel)%nat → chunksFuel fuel c xs = chunks c xs.
Proof.
  intros Hc. unfold chunks.
  remember (length xs) as n eqn:Hn.
  revert fuel xs Hn. induction n as [n IH] using lt_wf_ind. intros fuel xs Hn Hle.
  destruct xs as [|x xs].
  - subst n. by rewrite chunksFuel_nil.
  - destruct fuel as [|fuel]; [simpl in *; lia|].
    destruct n as [|n]; [done|]. cbn [chunksFuel]. f_equal.
    assert (Hd : (length (drop c (x :: xs)) ≤ n)%nat).
    { rewrite length_drop. cbn [length] in *. lia. }
    rewrite (IH (length (drop c (x :: xs))) ltac:(lia) fuel _ eq_refl ltac:(lia)).
    by rewrite (IH (length (drop c (x :: xs))) ltac:(lia) n _ eq_refl ltac:(lia)).
Qed.

Lemma chunks_cons {A} c (x : A) xs :
  (1 ≤ c)%nat →
  chunks c (x :: xs) = take c (x :: xs) :: chunks c (drop c (x :: xs)).
Proof.
  intros Hc. unfold chunks at 1. cbn [length chunksFuel]. f_equal.
  apply chunksFuel_enough; [done|]. rewrite length_drop. cbn [length]. lia.
Qed.

Lemma chunks_nil {A} c : chunks c (@nil A) = [].
Proof. done. Qed.

(** An induction principle that follows the chunks of a list. *)
Lemma chunks_ind {A} (c : nat) (P : list A → Prop) :
  (1 ≤ c)%nat →
  P [] →
  (∀ x xs, P (drop c (x :: xs)) → P (x :: xs)) →
  ∀ xs, P xs.
Proof.
  intros Hc Hnil Hcons xs.
  remember (length xs) as n eqn:Hn. revert xs Hn.
  induction n as [n IH] using lt_wf_ind. intros [|x xs] Hn; [done|].
  apply Hcons. eapply IH; [|done]. rewrite length_drop. subst n. cbn [length]. lia.
Qed.

Lemma concat_chunks {A} c (xs : list A) : (1 ≤ c)%nat → concat (chunks c xs) = xs.
Proof.
  intros Hc. pattern xs. apply (chunks_ind c _ Hc); clear xs; [done|].
  intros x xs IH.
  rewrite chunks_cons by done. cbn [concat]. rewrite IH. apply take_drop.
Qed.

Lemma chunks_lookup {A} c (xs : list A) k :
  (1 ≤ c)%nat → (k * c < length xs)%nat →
  chunks c xs !! k = Some (take c (drop (k * c) xs)).
Proof.
  intros Hc. revert k. pattern xs. apply (chunks_ind c _ Hc); clear xs.
  { intros k Hk. cbn [length] in Hk. lia. }
  intros x xs IH k Hk. rewrite chunks_cons by done. destruct k as [|k]; [done|].
  cbn [lookup list_lookup]. rewrite IH.
  - by rewrite drop_drop.
  - rewrite length_drop. cbn [Nat.mul] in Hk. lia.
Qed.

Lemma length_chunks {A} c (xs : list A) :
  (1 ≤ c)%nat → length (chunks c xs) = ((length xs + c - 1) / c)%nat.
Proof.
  intros Hc. pattern xs. apply (chunks_ind c _ Hc); clear xs.
  { cbn [chunks chunksFuel length]. symmetry. apply Nat.div_small. lia. }
  intros x xs IH.
  rewrite chunks_cons by done. cbn [length]. rewrite IH, length_drop. cbn [length].
  destruct (decide (c ≤ S (length xs))%nat) as [Hle|Hgt].
  - replace (S (length xs) + c - 1)%nat with ((S (length xs) - c + c - 1) + 1 * c)%nat by lia.
    rewrite Nat.div_add by lia. lia.
  - replace (S (length xs) - c)%nat with 0%nat by lia.
    rewrite (Nat.div_small (0 + c - 1)) by lia.
    apply (Nat.div_unique _ _ 1 (S (length xs) - 1)%nat); lia.
Qed.

Lemma chunks_eq_nil {A} c (xs : list A) : chunks c xs = [] ↔ xs = [].
Proof. by destruct xs. Qed.


(** ** The loop of sendSalesDataInBatches *)

Lemma slice_take_drop {A} (xs : list A) (j c : nat) :
  (j ≤ length xs)%nat →
  slice xs (Z.of_nat j) (Z.of_nat j + Z.of_nat c) = take c (drop j xs).
Proof.
  intros Hj. unfold slice.
  rewrite (proj2 (Z.ltb_ge (Z.of_nat j) 0)) by lia.
  rewrite (proj2 (Z.ltb_ge (Z.of_nat j + Z.of_nat c) 0)) by lia.
  rewrite (Z.min_l (Z.of_nat j)) by lia. rewrite Nat2Z.id.
  destruct (decide (j + c ≤ length xs)%nat).
  - rewrite Z.min_l by lia. f_equal. lia.
  - rewrite Z.min_r by lia.
    replace (Z.to_nat (Z.of_nat (length xs) - Z.of_nat j)) with (length (drop j xs))
      by (rewrite length_drop; lia).
    rewrite firstn_all. symmetry. apply take_ge. rewrite length_drop. lia.
Qed.

Lemma batchLoop_runChunks w sendFuel loopFuel txs (c : nat) d (j : nat) results s :
  (1 ≤ c)%nat → (j ≤ length txs)%nat → (length txs - j ≤ loopFuel)%nat →
  batchLoop w sendFuel loopFuel txs (Z.of_nat c) d (Z.of_nat j) results s =
  runChunks w sendFuel d (chunks c (drop j txs)) results s.
Proof.
  intros Hc. revert j results s.
  induction loopFuel as [|loopFuel IH]; intros j results s Hj Hfuel.
  - assert (j = length txs) as -> by lia.
    rewrite drop_all. cbn [batchLoop]. by rewrite Z.ltb_irrefl.
  - cbn [batchLoop].
    destruct (Z.ltb_spec (Z.of_nat j) (Z.of_nat (length txs))) as [Hlt|Hge].
    + assert (Hjlt : (j < length txs)%nat) by lia.
      destruct (drop j txs) as [|x rest] eqn:Hdrop.
      { apply (f_equal length) in Hdrop. rewrite length_drop in Hdrop. simpl in Hdrop. lia. }
      rewrite chunks_cons by done. cbn [runChunks].
      unfold processBatch. rewrite slice_take_drop by lia. rewrite Hdrop.
      assert (Hmore : (Z.of_nat j + Z.of_nat c <? Z.of_nat (length txs)) =
                      match chunks c (drop c (x :: rest)) with [] => false | _ :: _ => true end).
      { rewrite <- Hdrop, drop_drop.
        destruct (drop (j + c) txs) as [|y ys] eqn:Hd2.
        - apply (f_equal length) in Hd2. rewrite length_drop in Hd2. simpl in Hd2.
          cbn. apply Z.ltb_ge. lia.
        - apply (f_equal length) in Hd2. rewrite length_drop in Hd2. simpl in Hd2.
          rewrite chunks_cons by done. apply Z.ltb_lt. lia. }
      rewrite Hmore. unfold bind.
      destruct (submitBatch _ _ _ _ _ _ _) as [[r| |] s1]; [|done..].
      replace (Z.of_nat j + Z.of_nat c) with (Z.of_nat (j + c)) by lia.
      destruct (decide (j + c ≤ length txs)%nat) as [Hle|Hgt].
      * rewrite IH by lia. by rewrite <- Hdrop, drop_drop.
      * rewrite <- Hdrop, drop_drop. rewrite (drop_ge txs (j + c)) by lia.
        destruct loopFuel; cbn [batchLoop];
          by rewrite (proj2 (Z.ltb_ge (Z.of_nat (j + c)) (Z.of_nat (length txs)))) by lia.
    + assert (j = length txs) as -> by lia. by rewrite drop_all.
Qed.



Lemma findFailedTx_run w opVal batch s :
  ∃ found s',
    findFailedTx w opVal batch s = (Returned found, s')
    ∧ token s' = token s ∧ posts s' = posts s ∧ trace s' = trace s.
Proof.
  revert s. induction batch as [|tx batch IH]; intros s.
  - by exists None, s.
  - cbn [findFailedTx]. unfold bind at 1, now.
    destruct (Js.eqb _ _).
    + by eexists _, _.
    + match goal with |- context [findFailedTx _ _ _ ?st] =>
        destruct (IH st) as (found & s' & -> & Ht & Hp & Htr) end.
      by exists found, s'.
Qed.

Lemma trackFailed_run w entries batch failed s :
  ∃ failed' s',
    trackFailed w entries batch failed s = (Returned failed', s')
    ∧ token s' = token s ∧ posts s' = posts s ∧ trace s' = trace s.
Proof.
  revert failed s. induction entries as [|[opVal errorCode] entries IH]; intros failed s.
  - by exists failed, s.
  - cbn [trackFailed]. unfold bind at 1.
    destruct (findFailedTx_run w opVal batch s) as (found & s1 & -> & Ht & Hp & Htr).
    destruct found as [tx|];
      match goal with |- context [trackFailed _ _ _ ?f s1] =>
        destruct (IH f s1) as (failed' & s' & -> & Ht' & Hp' & Htr') end;
      exists failed', s'; (split; [done|]); split_and!; congruence.
Qed.

(** After a batch whose submission returned, the wait comes exactly when a
    batch follows. *)
Lemma submitBatch_returned w sendFuel d batch more results s response s1 :
  sendSalesData w sendFuel batch s = (Returned response, s1) →
  ∃ results' s2,
    submitBatch w sendFuel d batch more results s = (Returned results', s2)
    ∧ batchResults results' = batchResults results ++ [response]
    ∧ trace s2 = trace s1 ++ (if more then [EvBatchDelay d] else []).
Proof.
  intros Hsend. unfold submitBatch, tryCatch. unfold bind at 1. rewrite Hsend.
  unfold bind at 1.
  destruct (resultData response) as [rd|].
  - unfold bind at 1.
    assert (Hf : ∃ failed' s', (match failData rd with
             | Some fd => trackFailed w fd batch (failedTransactions results)
             | None => ret (failedTransactions results) end) s1 = (Returned failed', s')
             ∧ trace s' = trace s1).
    { destruct (failData rd) as [fd|].
      - destruct (trackFailed_run w fd batch (failedTransactions results) s1)
          as (f & s' & -> & _ & _ & Htr). by eexists _, _.
      - by eexists _, _. }
    destruct Hf as (failed' & s' & -> & Htr). unfold ret at 1.
    unfold bind. destruct more; cbn; eexists _, _; (split; [done|]); cbn;
      rewrite ?Htr, ?app_nil_r; done.
  - unfold ret at 1. unfold bind. destruct more; cbn; eexists _, _; (split; [done|]); cbn;
      rewrite ?app_nil_r; done.
Qed.

Lemma submitBatch_thrown w sendFuel d batch more results s e s1 :
  sendSalesData w sendFuel batch s = (Thrown e, s1) →
  submitBatch w sendFuel d batch more results s
  = (Returned (markBatchFailed results batch e), s1).
Proof.
  intros Hsend. unfold submitBatch, tryCatch. unfold bind at 1. by rewrite Hsend.
Qed.

Lemma chunk_length {A} c (xs : list A) k b :
  (1 ≤ c)%nat → chunks c xs !! k = Some b →
  b = take c (drop (k * c) xs)
  ∧ length b = (if decide ((k + 1) * c ≤ length xs)%nat then c
                else length xs `mod` c)%nat.
Proof.
  intros Hc Hb.
  assert (Hk : (k < length (chunks c xs))%nat) by (by eapply lookup_lt_Some).
  rewrite length_chunks in Hk by done.
  assert (Hkc : (k * c < length xs)%nat).
  { destruct (decide (k * c < length xs)%nat) as [|Hn]; [done|exfalso].
    assert ((length xs + c - 1) `div` c < S k)%nat; [|lia].
    apply Nat.Div0.div_lt_upper_bound. nia. }
  rewrite chunks_lookup in Hb by done. injection Hb as <-. split; [done|].
  rewrite length_take, length_drop. case_decide as Hfull.
  - lia.
  - rewrite Nat.min_r by lia.
    apply (Nat.mod_unique _ _ k); lia.
Qed.

(** How the input is chunked.  For a chunk size [c >= 1] (100 when none is
    given) and enough loop fuel, [sendSalesDataInBatches] submits the chunks
    of the input one after the other: there are [ceil(n / c)] of them, they
    are contiguous and in order, chunk [k] holds [c] transactions when
    [(k + 1) * c <= n] and [n mod c] otherwise; after a chunk whose
    submission returned a reply the configured wait follows exactly when
    another chunk does. *)
Theorem batches_are_chunks w sendFuel loopFuel txs batchSize delay (c : nat) s :
  (1 ≤ c)%nat →
  default maxBatchSize batchSize = Z.of_nat c →
  (length txs ≤ loopFuel)%nat →
  sendSalesDataInBatches w sendFuel loopFuel txs batchSize delay s
  = runChunks w sendFuel (default 1000 delay) (chunks c txs) noResults s
  ∧ length (chunks c txs) = ((length txs + c - 1) `div` c)%nat
  ∧ concat (chunks c txs) = txs
  ∧ (∀ k b, chunks c txs !! k = Some b →
       b = take c (drop (k * c) txs)
       ∧ length b = (if decide ((k + 1) * c ≤ length txs)%nat then c
                     else length txs `mod` c)%nat)
  ∧ (∀ batch more results s0 response s1,
       sendSalesData w sendFuel batch s0 = (Returned response, s1) →
       ∃ results' s2,
         submitBatch w sendFuel (default 1000 delay) batch more results s0
         = (Returned results', s2)
         ∧ batchResults results' = batchResults results ++ [response]
         ∧ trace s2 = trace s1
                      ++ (if more then [EvBatchDelay (default 1000 delay)] else [])).
Proof.
  intros Hc Hsize Hfuel. split_and!.
  - unfold sendSalesDataInBatches. rewrite Hsize.
    rewrite (batchLoop_runChunks w sendFuel loopFuel txs c _ 0) by lia. done.
  - by apply length_chunks.
  - by apply concat_chunks.
  - intros k b. by apply chunk_length.
  - intros. by eapply submitBatch_returned.
Qed.

Lemma batches_are_chunks_witness :
  runChunks flakyStart 0 1000
    (chunks 2 [sampleTx "order-1" "item-1"; sampleTx "order-2" "item-2";
               sampleTx "order-3" "item-3"]) noResults authenticated
  = sendSalesDataInBatches flakyStart 0 3
      [sampleTx "order-1" "item-1"; sampleTx "order-2" "item-2";
       sampleTx "order-3" "item-3"] (Some 2) None authenticated.
Proof.
  symmetry.
  refine (proj1 (batches_are_chunks flakyStart 0 3 _ (Some 2) None 2 authenticated _ _ _)).
  - lia.
  - reflexivity.
  - simpl; lia.
Defined.

(** 250 transactions in chunks of 100. *)
Lemma chunks_250_by_100 {A} (xs : list A) :
  length xs = 250%nat → List.map length (chunks 100 xs) = [100; 100; 50]%nat.
Proof.
  intros Hlen.
  assert (H3 : length (chunks 100 xs) = 3%nat).
  { rewrite length_chunks, Hlen by lia. reflexivity. }
  destruct (chunks 100 xs) as [|b0 [|b1 [|b2 [|? ?]]]] eqn:Hch; try discriminate.
  assert (Hk : ∀ k b, [b0; b1; b2] !! k = Some b →
     length b = (if decide ((k + 1) * 100 ≤ 250)%nat then 100 else 250 `mod` 100)%nat).
  { intros k b Hb. rewrite <- Hch in Hb.
    apply chunk_length in Hb as [_ Hb]; [|lia]. by rewrite Hlen in Hb. }
  cbn [List.map]. rewrite (Hk 0%nat b0 eq_refl), (Hk 1%nat b1 eq_refl), (Hk 2%nat b2 eq_refl).
  reflexivity.
Qed.

(** C4 (fails on the code).  The input is chunked as the claim says, but the
    configured delay is not observed between all chunks: the wait is the
    last statement of the [try] block, so a chunk whose submission throws
    goes to the [catch] block and the next chunk is submitted at once.  In
    general the state after such a chunk is the state in which the
    submission threw, although another chunk follows.  At the failing
    input, two transactions with chunk size 1 and a network failure on the
    first chunk: two chunks of one transaction, five submission POSTs (four
    attempts for the first chunk, one for the second), the first
    transaction recorded as failed, the second accepted, and no wait at
    all where the claim has one. *)
Theorem wait_skipped_after_failed_chunk :
  (∀ w sendFuel d batch results s e s1,
     sendSalesData w sendFuel batch s = (Thrown e, s1) →
     submitBatch w sendFuel d batch true results s
     = (Returned (markBatchFailed results batch e), s1))
  ∧ (let txs := [sampleTx "order-1" "item-1"; sampleTx "order-2" "item-2"] in
     let '(r, s') :=
       sendSalesDataInBatches flakyStart 0 2 txs (Some 1) (Some 1000)
         authenticated in
     List.map length (chunks 1 txs) = [1; 1]%nat
     ∧ (∃ res, r = Returned res
               ∧ totalFailed res = 1 ∧ totalSuccess res = 1
               ∧ List.map fst (failedTransactions res)
                 = [sampleTx "order-1" "item-1"])
     ∧ count isSales (trace s') = 5%nat
     ∧ count isBatchDelay (trace s') = 0%nat)
  ∧ ¬ waitsBetweenAllChunks flakyStart 0 2
        [sampleTx "order-1" "item-1"; sampleTx "order-2" "item-2"] 1 1000
        authenticated.
Proof.
  split_and!.
  - intros. by apply submitBatch_thrown.
  - vm_compute. split_and!; try reflexivity.
    eexists. split_and!; reflexivity.
  - unfold waitsBetweenAllChunks. vm_compute. discriminate.
Qed.

(** The body of the loop catches whatever the submission throws. *)
Lemma submitBatch_never_throws w sendFuel d batch more results s e s' :
  submitBatch w sendFuel d batch more results s ≠ (Thrown e, s').
Proof.
  destruct (sendSalesData w sendFuel batch s) as [[response|e0|] s1] eqn:Hsend.
  - destruct (submitBatch_returned w sendFuel d batch more results s _ _ Hsend)
      as (r & s2 & -> & _). done.
  - by rewrite (submitBatch_thrown w sendFuel d batch more results s _ _ Hsend).
  - unfold submitBatch, tryCatch. unfold bind at 1. by rewrite Hsend.
Qed.

(** With [batchSize] 0 the loop never advances. *)
Lemma zero_batch_size_diverges w sendFuel loopFuel tx txs d results s :
  fst (batchLoop w sendFuel loopFuel (tx :: txs) 0 d 0 results s) = OutOfFuel.
Proof.
  revert results s. induction loopFuel as [|loopFuel IH]; intros results s;
    cbn [batchLoop length];
    rewrite (proj2 (Z.ltb_lt 0 (Z.of_nat (S (length txs))))) by lia; [done|].
  unfold bind, processBatch.
  destruct (submitBatch _ _ _ _ _ _ _) as [[r|e|] s1] eqn:Hb; [apply IH| |done].
  by apply submitBatch_never_throws in Hb.
Qed.


(** ** Aggregation *)











(** ** Failure maps *)

(** A match of [findFailedTx] is a match against a token made from a clock
    reading taken during the search, after the submission. *)
Lemma findFailedTx_found w opVal batch s tx s' :
  findFailedTx w opVal batch s = (Returned (Some tx), s') →
  tx ∈ batch
  ∧ ∃ k, (ticks s ≤ k < ticks s')%nat
         ∧ opVal = opValAt (clock w k) (orderId tx) (lineItemId tx).
Proof.
  revert s. induction batch as [|t batch IH]; intros s; [done|].
  cbn [findFailedTx]. unfold bind at 1, now. cbn [ticks].
  unfold Js.eqb. case_bool_decide as Heq.
  - intros [= <- <-]. split; [apply list_elem_of_here|].
    exists (ticks s). cbn [ticks]. split; [lia|done].
  - intros H. apply IH in H as (Hin & k & Hk & Hop). cbn [ticks] in Hk.
    split; [by apply list_elem_of_further|]. exists k. split; [lia|done].
Qed.

(** C2 (fails on the code).  The reply names both records of the batch as
    failed, by the dedup tokens they were sent with; [find] compares them
    with tokens made from later clock readings, matches neither, and
    [failedTransactions] stays empty. *)
Theorem failure_map_entries_lost :
  let txs := [sampleTx "order-1" "item-1"; sampleTx "order-2" "item-2"] in
  let '(r, s') :=
    sendSalesDataInBatches (rejectingRecords 100) 0 1 txs None None authenticated in
  ∃ results response rd,
    r = Returned results
    ∧ batchResults results = [response]
    ∧ resultData response = Some rd
    ∧ failData rd = Some [(lit "order-1-item-1-1749690000002", lit "404_UC");
                          (lit "order-2-item-2-1749690000004", lit "404_UC")]
    ∧ totalFailed results = 2
    ∧ failedTransactions results = [].
Proof. vm_compute. eexists _, _, _. repeat split. Qed.

(** The documented partial-success reply never reaches the failure map. *)
Lemma partial_success_fails_whole_batch :
  let txs := [sampleTx "order-1" "item-1"; sampleTx "order-2" "item-2"] in
  fst (sendSalesDataInBatches (rejectingRecords 101) 0 1 txs None None authenticated)
  = Returned
      {| totalSent := 0; totalSuccess := 0; totalFailed := 2;
         batchResults := [];
         failedTransactions :=
           List.map (fun tx =>
                       (tx, lit "Hanteo Error: Partial success - some records failed"))
                    txs |}.
Proof. vm_compute. reflexivity. Qed.

End HanteoFacts.

Module SyncFacts.
Import Js Eff ErrorHandler Validators Sync SyncSpec.
Local Open Scope Z_scope.

Lemma syncAlbumProducts_run w s :
  syncAlbumProducts w s =
  match getAlbumProducts w (fetches s) with
  | inr products =>
      (Returned tt,
       {| albumProductsCache := rebuild products;
          lastCacheUpdate := clock w (ticks s);
          ticks := S (ticks s); fetches := S (fetches s) |})
  | inl e =>
      (Thrown e,
       {| albumProductsCache := albumProductsCache s;
          lastCacheUpdate := lastCacheUpdate s;
          ticks := ticks s; fetches := S (fetches s) |})
  end.
Proof.
  unfold syncAlbumProducts, tryCatch, bind, fetchAlbumProducts.
  destruct (getAlbumProducts w (fetches s)); reflexivity.
Qed.

Lemma ensureProductsCached_run w s :
  ensureProductsCached w s =
  if (clock w (ticks s) - lastCacheUpdate s >? CACHE_TTL)
     || (size (albumProductsCache s) =? 0)%nat
  then syncAlbumProducts w (ticked s)
  else (Returned tt, ticked s).
Proof.
  unfold ensureProductsCached, bind, now, get, ticked, ret.
  cbn [albumProductsCache lastCacheUpdate]. by destruct (_ || _).
Qed.

Lemma fold_insert_nonempty (products : list AlbumProduct) (m : gmap Z AlbumProduct) :
  m ≠ ∅ →
  fold_left (fun m product => <[variantId product := product]> m) products m ≠ ∅.
Proof.
  revert m. induction products as [|p ps IH]; intros m Hm; [done|].
  cbn [fold_left]. apply IH. apply insert_non_empty.
Qed.

Lemma rebuild_nonempty products : products ≠ [] → size (rebuild products) ≠ 0%nat.
Proof.
  intros Hne. destruct products as [|p ps]; [done|].
  apply map_size_non_empty_iff. unfold rebuild. cbn [fold_left].
  apply fold_insert_nonempty, insert_non_empty.
Qed.

(** C6.  When the product fetch of a refresh throws [e], [syncAlbumProducts]
    throws [e] and leaves the cached entries and [lastCacheUpdate] as they
    were; the same holds when the refresh is started by
    [ensureProductsCached]. *)
Theorem refresh_failure_keeps_snapshot w s e :
  getAlbumProducts w (fetches s) = inl e →
  (∃ s', syncAlbumProducts w s = (Thrown e, s')
         ∧ albumProductsCache s' = albumProductsCache s
         ∧ lastCacheUpdate s' = lastCacheUpdate s)
  ∧ (∀ r s', ensureProductsCached w s = (r, s') →
       albumProductsCache s' = albumProductsCache s
       ∧ lastCacheUpdate s' = lastCacheUpdate s
       ∧ (r = Returned tt ∨ r = Thrown e)).
Proof.
  intros Hfetch. split.
  - rewrite syncAlbumProducts_run, Hfetch. by eexists.
  - intros r s'. rewrite ensureProductsCached_run.
    destruct (_ || _).
    + rewrite syncAlbumProducts_run. cbn [fetches ticked]. rewrite Hfetch.
      intros [= <- <-]. auto.
    + intros [= <- <-]. auto.
Qed.

Lemma refresh_failure_keeps_snapshot_witness :
  ∃ s', syncAlbumProducts unreachable warm
        = (Thrown (ShopifyError (lit "Shopify Error: API Error")), s')
        ∧ albumProductsCache s' = albumProductsCache warm
        ∧ lastCacheUpdate s' = lastCacheUpdate warm.
Proof.
  exact (proj1 (refresh_failure_keeps_snapshot unreachable warm
                  (ShopifyError (lit "Shopify Error: API Error")) eq_refl)).
Defined.

(** A refresh that succeeds replaces the snapshot wholesale. *)
Lemma refresh_success_replaces w s products :
  getAlbumProducts w (fetches s) = inr products →
  syncAlbumProducts w s =
  (Returned tt,
   {| albumProductsCache := rebuild products;
      lastCacheUpdate := clock w (ticks s);
      ticks := S (ticks s); fetches := S (fetches s) |}).
Proof. intros H. by rewrite syncAlbumProducts_run, H. Qed.

(** C9.  Of two checks in a row, the second fetches nothing when the age of
    the cache is within [CACHE_TTL] and the cache is not empty; when the age
    exceeds [CACHE_TTL] or the cache is empty it runs [syncAlbumProducts]
    (one fetch) before it returns. *)
Theorem second_check_respects_ttl w s0 :
  let '(r1, s1) := ensureProductsCached w s0 in
  let '(r2, s2) := ensureProductsCached w s1 in
  let age := clock w (ticks s1) - lastCacheUpdate s1 in
  (age ≤ CACHE_TTL ∧ albumProductsCache s1 ≠ ∅ →
     r2 = Returned tt ∧ fetches s2 = fetches s1
     ∧ albumProductsCache s2 = albumProductsCache s1
     ∧ lastCacheUpdate s2 = lastCacheUpdate s1)
  ∧ (CACHE_TTL < age ∨ albumProductsCache s1 = ∅ →
     fetches s2 = S (fetches s1)
     ∧ (r2, s2) = syncAlbumProducts w (ticked s1)
     ∧ ∀ products, getAlbumProducts w (fetches s1) = inr products →
         r2 = Returned tt
         ∧ albumProductsCache s2 = rebuild products
         ∧ lastCacheUpdate s2 = clock w (S (ticks s1))).
Proof.
  destruct (ensureProductsCached w s0) as [r1 s1].
  destruct (ensureProductsCached w s1) as [r2 s2] eqn:H2.
  rewrite ensureProductsCached_run in H2. cbv zeta. split.
  - intros [Hage Hne].
    rewrite Z.gtb_ltb, (proj2 (Z.ltb_ge _ _)) in H2 by lia.
    apply map_size_non_empty_iff in Hne.
    rewrite (proj2 (Nat.eqb_neq _ _) Hne) in H2. cbn in H2. by injection H2 as <- <-.
  - intros Hstale.
    assert (Hc : (clock w (ticks s1) - lastCacheUpdate s1 >? CACHE_TTL)
                 || (size (albumProductsCache s1) =? 0)%nat = true).
    { apply orb_true_iff. destruct Hstale as [Hage| ->].
      - left. rewrite Z.gtb_ltb. apply Z.ltb_lt. lia.
      - right. by rewrite map_size_empty. }
    rewrite Hc in H2. split_and!.
    + rewrite syncAlbumProducts_run in H2.
      destruct (getAlbumProducts w (fetches (ticked s1))); by injection H2 as <- <-.
    + done.
    + intros products Hp. rewrite syncAlbumProducts_run in H2.
      cbn [ticked fetches] in H2. rewrite Hp in H2. by injection H2 as <- <-.
Qed.


Lemma second_check_respects_ttl_witness :
  fetches (snd (ensureProductsCached halfHourly
                  (snd (ensureProductsCached halfHourly initial)))) = 1%nat.
Proof.
  pose proof (second_check_respects_ttl halfHourly initial) as H.
  assert (E1 : ensureProductsCached halfHourly initial
               = (Returned tt,
                  {| albumProductsCache := rebuild [sampleProduct];
                     lastCacheUpdate := clock halfHourly 1;
                     ticks := 2; fetches := 1 |})).
  { rewrite ensureProductsCached_run. reflexivity. }
  rewrite E1 in H |- *. cbn [snd].
  destruct (ensureProductsCached halfHourly _) as [r2 s2].
  destruct H as [H _]. cbn [snd]. 
  destruct H as (_ & -> & _); [|done].
  split.
  - vm_compute. discriminate.
  - apply map_size_non_empty_iff, rebuild_nonempty. discriminate.
Defined.

(** The scenario of the repository's cache test, with a clock that advances
    half an hour per reading: the first check fills the cold cache, checks
    half an hour and an hour after the refresh fetch nothing, and the check
    an hour and a half after it fetches again. *)
Example fetches_over_four_checks :
  let check s := snd (ensureProductsCached halfHourly s) in
  let s1 := check initial in
  let s2 := check s1 in
  let s3 := check s2 in
  let s4 := check s3 in
  List.map fetches [s1; s2; s3; s4] = [1; 1; 1; 2]%nat.
Proof. vm_compute. reflexivity. Qed.

End SyncFacts.

Module TextFacts.
Import Js Validators.
Local Open Scope Z_scope.

(** ** Decimal numerals *)

Lemma parseInt_snoc ds (c : N) :
  parseInt (ds ++ [c]) = parseInt ds * 10 + (Z.of_N c - 48).
Proof. unfold parseInt. by rewrite fold_left_app. Qed.

Lemma isDigit_char (n : N) : (n < 10)%N → isDigit (48 + n) = true.
Proof.
  intros H. unfold isDigit. apply andb_true_iff. split; apply N.leb_le; lia.
Qed.

(** With enough fuel [digitsOf] puts the decimal numeral of [n] in front of
    the accumulator. *)
Lemma digitsOf_numeral fuel (n : N) acc :
  (n < 10 ^ N.of_nat (S fuel))%N →
  ∃ ds, digitsOf (S fuel) n acc = ds ++ acc
        ∧ ds ≠ []
        ∧ Forall (fun c => isDigit c = true) ds
        ∧ parseInt ds = Z.of_N n.
Proof.
  revert n acc. induction fuel as [|fuel IH]; intros n acc Hn.
  - cbn [digitsOf]. change (10 ^ N.of_nat 1)%N with 10%N in Hn.
    exists [(48 + n mod 10)%N]. 
    assert (n mod 10 = n)%N as Hm by (apply N.mod_small; lia).
    split_and!.
    + by destruct (n <? 10)%N.
    + done.
    + constructor; [|constructor]. apply isDigit_char. lia.
    + unfold parseInt. cbn [fold_left]. lia.
  - cbn [digitsOf]. destruct (N.ltb_spec n 10) as [Hlt|Hge].
    + exists [(48 + n mod 10)%N].
      assert (n mod 10 = n)%N as Hm by (apply N.mod_small; lia).
      split_and!; [done|done| |].
      * constructor; [|constructor]. apply isDigit_char. lia.
      * unfold parseInt. cbn [fold_left]. lia.
    + destruct (IH (n / 10)%N ((48 + n mod 10)%N :: acc)) as (ds & Hds & Hne & Hall & Hval).
      { apply N.Div0.div_lt_upper_bound.
        replace (N.of_nat (S (S fuel))) with (N.succ (N.of_nat (S fuel))) in Hn by lia.
        by rewrite N.pow_succ_r' in Hn. }
      exists (ds ++ [(48 + n mod 10)%N]). split_and!.
      * cbn [digitsOf] in Hds |- *. rewrite Hds. by rewrite <- app_assoc.
      * by destruct ds.
      * apply Forall_app. split; [done|]. constructor; [|constructor].
        apply isDigit_char. apply N.mod_lt. lia.
      * rewrite parseInt_snoc, Hval.
        pose proof (N.Div0.div_mod n 10) as Hdm.
        pose proof (N.mod_lt n 10 ltac:(lia)). lia.
Qed.

Lemma log2_fuel (n : N) : (n < 10 ^ N.of_nat (S (N.to_nat (N.log2 n))))%N.
Proof.
  destruct (N.eq_dec n 0%N) as [->|Hn]; [done|].
  pose proof (N.log2_spec n ltac:(lia)) as [_ Hlt].
  eapply N.lt_le_trans; [exact Hlt|].
  replace (N.of_nat (S (N.to_nat (N.log2 n)))) with (N.succ (N.log2 n)) by lia.
  apply N.pow_le_mono_l. lia.
Qed.

(** [toString] of a non-negative integer: a non-empty run of digits that
    [parseInt] reads back. *)
Lemma ofZ_numeral (z : Z) :
  0 ≤ z →
  ofZ z ≠ [] ∧ Forall (fun c => isDigit c = true) (ofZ z) ∧ parseInt (ofZ z) = z.
Proof.
  intros Hz. unfold ofZ. rewrite (proj2 (Z.ltb_ge z 0)) by lia.
  destruct (digitsOf_numeral (N.to_nat (N.log2 (Z.abs_N z))) (Z.abs_N z) [])
    as (ds & -> & Hne & Hall & Hval); [apply log2_fuel|].
  rewrite app_nil_r. split_and!; [done..|]. rewrite Hval. lia.
Qed.

Lemma ofZ_inj (a b : Z) : 0 ≤ a → 0 ≤ b → ofZ a = ofZ b → a = b.
Proof.
  intros Ha Hb Heq.
  destruct (ofZ_numeral a Ha) as (_ & _ & <-).
  destruct (ofZ_numeral b Hb) as (_ & _ & <-). by rewrite Heq.
Qed.

End TextFacts.

Module RetryFacts.
Import Js Eff ErrorHandler RetrySpec.
Local Open Scope Z_scope.

Lemma retryLoop_scripted {A} (script : nat → exn + A) maxRetries initialDelay
    (k attempt left : nat) lastError ws :
  (attempt + left = S maxRetries)%nat →
  (attempt ≤ k ≤ maxRetries)%nat →
  (∀ j, (attempt ≤ j < k)%nat → failsAt script j) →
  (k = maxRetries ∨ ∃ a, script k = inr a) →
  retryLoop pause (scripted script) maxRetries initialDelay 30000 2
            attempt left lastError {| made := attempt; waited := ws |}
  = (match script k with inr a => Returned a | inl e => Thrown e end,
     {| made := S k;
        waited := ws ++ List.map (backoff initialDelay) (seq attempt (k - attempt)) |}).
Proof.
  revert attempt lastError ws.
  induction left as [|left IH]; intros attempt lastError ws Hsum Hk Hfail Hend; [lia|].
  cbn [retryLoop]. unfold tryCatch, scripted at 1. cbn [made waited].
  destruct (decide (attempt = k)) as [->|Hne].
  - replace (k - k)%nat with 0%nat by lia. cbn [seq List.map]. rewrite app_nil_r.
    destruct (script k) as [e|a] eqn:Hs; [|done].
    destruct Hend as [->|[a Ha]]; [|congruence].
    by rewrite Nat.eqb_refl.
  - destruct (Hfail attempt ltac:(lia)) as [e He]. rewrite He.
    rewrite (proj2 (Nat.eqb_neq attempt maxRetries)) by lia.
    unfold bind, pause at 1. cbn [made waited].
    rewrite (IH (S attempt)); [|lia|lia| |done].
    + do 2 f_equal. rewrite <- app_assoc. f_equal.
      replace (k - attempt)%nat with (S (k - S attempt)) by lia. done.
    + intros j Hj. apply Hfail. lia.
Qed.

(** X10.  [retryWithBackoff] calls the operation until it succeeds or has failed
    [maxRetries + 1] times; before the retry that follows failed attempt
    [j] it waits [min (initialDelay * 2^j) 30000] ms; the result is that of
    the last call made. *)
Theorem retryWithBackoff_schedule {A} (script : nat → exn + A)
    (maxRetries : nat) (initialDelay : Z) (k : nat) :
  (k ≤ maxRetries)%nat →
  (∀ j, (j < k)%nat → failsAt script j) →
  (k = maxRetries ∨ ∃ a, script k = inr a) →
  retryWithBackoff pause (scripted script) maxRetries initialDelay
                   {| made := 0; waited := [] |}
  = (match script k with inr a => Returned a | inl e => Thrown e end,
     {| made := S k;
        waited := List.map (backoff initialDelay) (seq 0 k) |}).
Proof.
  intros Hk Hfail Hend. unfold retryWithBackoff.
  rewrite (retryLoop_scripted script maxRetries initialDelay k 0); try done; try lia.
  - by rewrite Nat.sub_0_r.
  - intros j Hj. apply Hfail. lia.
Qed.

Lemma retryWithBackoff_schedule_witness :
  retryWithBackoff pause (scripted (flaky 2)) 3 1000 {| made := 0; waited := [] |}
  = (Returned 7, {| made := 3; waited := [1000; 2000] |}).
Proof.
  refine (retryWithBackoff_schedule (flaky 2) 3 1000 2 _ _ _).
  - lia.
  - intros j Hj. exists (AxiosError (lit "Network Error") None).
    unfold flaky. by rewrite (proj2 (Nat.ltb_lt j 2) Hj).
  - right. by exists 7.
Defined.

End RetryFacts.

Module TokenFacts.
Import Js Validators ValidatorsSpec TextFacts.
Local Open Scope Z_scope.

Lemma dash_not_digit : isDigit 45 = false.
Proof. reflexivity. Qed.

(** A run of digits followed by a dash is read off unambiguously. *)
Lemma digits_dash_inj (a a' r r' : str) :
  allDigits a → allDigits a' →
  a ++ 45%N :: r = a' ++ 45%N :: r' → a = a' ∧ r = r'.
Proof.
  revert a'. induction a as [|c a IH]; intros [|c' a'] Ha Ha' Heq; simplify_eq/=.
  - done.
  - inversion Ha'; subst. discriminate.
  - inversion Ha; subst. discriminate.
  - inversion Ha; inversion Ha'; subst.
    destruct (IH a') as [-> ->]; done.
Qed.

(** X11.  For numeric ids the dedup token determines the order id, the line item
    id and the instant it was made at. *)
Theorem opVal_determines_ids (t t' : Z) (o l o' l' : str) :
  allDigits o → allDigits l → allDigits o' → allDigits l' →
  0 ≤ t → 0 ≤ t' →
  opValAt t o l = opValAt t' o' l' →
  o = o' ∧ l = l' ∧ t = t'.
Proof.
  intros Ho Hl Ho' Hl' Ht Ht' Heq. unfold opValAt in Heq.
  change (lit "-") with [45%N] in Heq. cbn [app] in Heq.
  apply digits_dash_inj in Heq as [-> Heq]; [|done..].
  apply digits_dash_inj in Heq as [-> Heq]; [|done..].
  split_and!; [done..|]. by apply ofZ_inj.
Qed.

Lemma opVal_determines_ids_witness :
  lit "5555555555" = lit "5555555555" ∧ lit "7777777777" = lit "7777777777"
  ∧ 1749690000002 = 1749690000002.
Proof.
  refine (opVal_determines_ids 1749690000002 1749690000002
            (lit "5555555555") (lit "7777777777")
            (lit "5555555555") (lit "7777777777") _ _ _ _ _ _ eq_refl);
    try lia; unfold allDigits; by repeat constructor.
Defined.

End TokenFacts.

Module SubmitterFacts.
Import Js Eff ErrorHandler Validators Hanteo HanteoSpec HanteoFacts SubmitterSpec.
Local Open Scope Z_scope.

(** ** The handshake *)

(** X1.  [authenticate] posts to the token endpoint exactly once.  When the reply
    carries code 100 and token data, the token is stored with
    [expiresAt = now + expires_in * 1000]; in every other case the call
    throws "Hanteo Error: Authentication failed" and the stored token stays
    as it was. *)
Theorem authenticate_outcome w s :
  let '(r, s') := authenticate w s in
  posts s' = S (posts s)
  ∧ trace s' = trace s ++ [EvAuth]
  ∧ match issuedToken w (posts s) with
    | Some rd =>
        r = Returned tt
        ∧ token s' = Some {| accessToken := access_token rd;
                             tokenType := token_type rd;
                             expiresAt := clock w (ticks s) + expires_in rd * 1000 |}
    | None => r = Thrown authFailure ∧ token s' = token s ∧ ticks s' = ticks s
    end.
Proof.
  rewrite authenticate_run. unfold issuedToken.
  destruct (authHttp w (posts s)) as [r|e]; cbn; [|done].
  destruct (tCode r =? SUCCESS); cbn; [|done].
  by destruct (tResultData r).
Qed.

(** X2.  When [ensureAuthenticated] returns, a token is stored; it has sent
    nothing if the stored token was valid, and one handshake otherwise. *)
Theorem ensureAuthenticated_postcondition w s s' :
  ensureAuthenticated w s = (Returned tt, s') →
  (∃ tok, token s' = Some tok)
  ∧ (tokenValidAt w s = true →
       token s' = token s ∧ posts s' = posts s ∧ trace s' = trace s)
  ∧ (tokenValidAt w s = false →
       posts s' = S (posts s) ∧ trace s' = trace s ++ [EvAuth]).
Proof.
  destruct (tokenValidAt w s) eqn:Hv.
  - rewrite (ensureAuthenticated_valid _ _ Hv). intros [= <-]. cbn.
    unfold tokenValidAt in Hv. destruct (token s) as [tok|]; [|done].
    split_and!; [by exists tok|done|done].
  - rewrite (ensureAuthenticated_invalid _ _ Hv), authenticate_run.
    set (s0 := match token s with None => s | Some _ => _ end).
    assert (trace s0 = trace s ∧ posts s0 = posts s) as [Htr Hp].
    { subst s0. by destruct (token s). }
    destruct (authHttp w (posts s0)) as [r|e]; [|done].
    destruct (tCode r =? SUCCESS); [|done].
    destruct (tResultData r) as [rd|]; [|done].
    intros [= <-]. cbn. rewrite Htr, Hp. split_and!; [by eexists|done|done].
Qed.

Lemma ensureAuthenticated_postcondition_witness :
  ∃ tok,
    token (snd (ensureAuthenticated alwaysUnauthorized fresh)) = Some tok.
Proof.
  refine (proj1 (ensureAuthenticated_postcondition alwaysUnauthorized fresh
                   (snd (ensureAuthenticated alwaysUnauthorized fresh)) _)).
  vm_compute. reflexivity.
Defined.

(** ** One submission *)

(** X3.  A batch above [maxBatchSize] is rejected with code 604 once a token is
    in place: nothing is submitted, nothing is retried, and the token stays
    as it is. *)
Theorem oversized_batch_fails_fast w fuel txs s s0 :
  Z.of_nat (length txs) > maxBatchSize →
  ensureAuthenticated w s = (Returned tt, s0) →
  ∃ s1,
    sendSalesData w fuel txs s
    = (Thrown (newHanteoError
                 (lit "Batch size " ++ ofZ (Z.of_nat (length txs))
                  ++ lit " exceeds maximum " ++ ofZ maxBatchSize)
                 (Some INVALID_DATA) None),
       s1)
    ∧ token s1 = token s0 ∧ posts s1 = posts s0 ∧ trace s1 = trace s0.
Proof.
  intros Hlen Hauth. rewrite sendSalesData_unfold. unfold bind at 1. rewrite Hauth.
  destruct txs as [|tx txs]; [unfold maxBatchSize in Hlen; cbn in Hlen; lia|].
  cbn [length Nat.eqb].
  destruct (convert_all_run w (tx :: txs) s0) as (sd & Hsd & Hl).
  unfold bind. rewrite Hsd, Hl.
  rewrite (proj2 (Z.gtb_gt _ _)) by lia.
  eexists. split; [reflexivity|done].
Qed.

Lemma oversized_batch_fails_fast_witness :
  ∃ s1,
    fst (sendSalesData acceptingAll 0
           (replicate 101 (sampleTx "order-1" "item-1")) authenticated)
    = Thrown (newHanteoError (lit "Batch size 101 exceeds maximum 100")
                             (Some 604) None)
    ∧ trace s1 = [].
Proof.
  destruct (oversized_batch_fails_fast acceptingAll 0
              (replicate 101 (sampleTx "order-1" "item-1")) authenticated
              (snd (ensureAuthenticated acceptingAll authenticated)))
    as (s1 & Hs & _ & _ & Htr).
  - vm_compute. reflexivity.
  - vm_compute. reflexivity.
  - exists s1. rewrite Hs. split; [reflexivity|]. rewrite Htr. reflexivity.
Defined.

(** X4.  Once the HTTP layer has accepted a reply, the reply alone decides how
    [sendSalesData] ends: code 100 is returned, code 101 is thrown with the
    failure map when there is one and returned otherwise, any other code is
    thrown with the code.  Nothing more is sent; in particular a token code
    in the body does not start a handshake. *)
Theorem accepted_reply_decides w fuel txs s s0 salesData s1 result s2 :
  txs ≠ [] →
  Z.of_nat (length txs) ≤ maxBatchSize →
  ensureAuthenticated w s = (Returned tt, s0) →
  mapM (convertToHanteoFormat w) txs s0 = (Returned salesData, s1) →
  retryWithBackoff (fun ms => emit (EvBackoff ms)) (postSales w salesData)
                   retryAttempts retryDelay s1 = (Returned result, s2) →
  sendSalesData w fuel txs s = (replyOutcome result, s2).
Proof.
  intros Hne Hlen Hauth Hconv Hpost.
  rewrite sendSalesData_unfold. unfold bind at 1. rewrite Hauth.
  destruct txs as [|tx txs]; [done|]. cbn [length Nat.eqb].
  unfold bind at 1. rewrite Hconv.
  rewrite (mapM_length _ _ _ _ _ Hconv).
  destruct (Z.of_nat (length (tx :: txs)) >? maxBatchSize) eqn:Hgt; [lia|].
  unfold tryCatch, bind. rewrite Hpost.
  unfold partialFailData, replyOutcome.
  destruct (code result =? SUCCESS) eqn:Hs.
  - apply Z.eqb_eq in Hs. rewrite Hs. reflexivity.
  - destruct (code result =? PARTIAL_SUCCESS) eqn:Hp.
    + apply Z.eqb_eq in Hp.
      destruct (resultData result) as [[rc sc fc [fd|]]|]; cbn; try done.
      by rewrite Hp.
    + reflexivity.
Qed.

Lemma accepted_reply_decides_witness :
  fst (sendSalesData (rejectingRecords 101) 0 [sampleTx "order-1" "item-1"]
         authenticated)
  = Thrown (newHanteoError (lit "Partial success - some records failed")
              (Some 101)
              (Some [(lit "order-1-item-1-1749690000002", lit "404_UC")])).
Proof.
  set (w := rejectingRecords 101).
  set (txs := [sampleTx "order-1" "item-1"]).
  set (s0 := snd (ensureAuthenticated w authenticated)).
  set (c := mapM (convertToHanteoFormat w) txs s0).
  set (sd := match fst c with Returned x => x | _ => [] end).
  set (p := retryWithBackoff (fun ms => emit (EvBackoff ms)) (postSales w sd)
              retryAttempts retryDelay (snd c)).
  set (res := match fst p with
              | Returned x => x
              | _ => {| code := 0; message := None; resultData := None |}
              end).
  rewrite (accepted_reply_decides w 0 txs authenticated s0 sd (snd c) res (snd p)).
  - vm_compute. reflexivity.
  - discriminate.
  - vm_compute. discriminate.
  - vm_compute. reflexivity.
  - vm_compute. reflexivity.
  - vm_compute. reflexivity.
Defined.

End SubmitterFacts.

Module ConfigurationFacts.
Import Js Eff ErrorHandler Hanteo HanteoSpec HanteoFacts SubmitterSpec Configuration.
Local Open Scope Z_scope.

(** X5.  [validateConfiguration] never throws: it performs one handshake and
    answers whether it issued a token.  A token it is issued replaces the
    stored one; when none is issued the stored token stays. *)
Theorem validateConfiguration_outcome w s :
  let '(r, s') := validateConfiguration w s in
  posts s' = S (posts s)
  ∧ trace s' = trace s ++ [EvAuth]
  ∧ match issuedToken w (posts s) with
    | Some rd =>
        r = Returned true
        ∧ token s' = Some {| accessToken := access_token rd;
                             tokenType := token_type rd;
                             expiresAt := clock w (ticks s) + expires_in rd * 1000 |}
    | None => r = Returned false ∧ token s' = token s
    end.
Proof.
  unfold validateConfiguration, tryCatch, bind. rewrite authenticate_run.
  unfold issuedToken.
  destruct (authHttp w (posts s)) as [r|e]; cbn; [|done].
  destruct (tCode r =? SUCCESS); cbn; [|done].
  by destruct (tResultData r).
Qed.

End ConfigurationFacts.

Module BatchFacts.
Import Js Eff ErrorHandler Validators Hanteo HanteoSpec HanteoFacts SubmitterSpec.
Local Open Scope Z_scope.

Lemma batchLoop_never_throws w sendFuel loopFuel txs c d i results s e s' :
  batchLoop w sendFuel loopFuel txs c d i results s ≠ (Thrown e, s').
Proof.
  revert i results s. induction loopFuel as [|loopFuel IH]; intros i results s;
    cbn [batchLoop]; destruct (i <? Z.of_nat (length txs)); try done.
  unfold bind, processBatch.
  destruct (submitBatch _ _ _ _ _ _ _) as [[r|e0|] s1] eqn:Hb; [apply IH| |done].
  by apply submitBatch_never_throws in Hb.
Qed.

(** X6.  A chunked submission never rejects: whatever a chunk throws is folded
    into the aggregate. *)
Theorem sendSalesDataInBatches_never_throws w sendFuel loopFuel txs batchSize
    delay s e s' :
  sendSalesDataInBatches w sendFuel loopFuel txs batchSize delay s ≠ (Thrown e, s').
Proof. apply batchLoop_never_throws. Qed.

Lemma batchLoop_stuck w sendFuel loopFuel tx txs c d i results s :
  c ≤ 0 → i ≤ 0 →
  fst (batchLoop w sendFuel loopFuel (tx :: txs) c d i results s) = OutOfFuel.
Proof.
  intros Hc. revert i results s.
  induction loopFuel as [|loopFuel IH]; intros i results s Hi;
    cbn [batchLoop length];
    rewrite (proj2 (Z.ltb_lt i (Z.of_nat (S (length txs))))) by lia; [done|].
  unfold bind, processBatch.
  destruct (submitBatch _ _ _ _ _ _ _) as [[r|e|] s1] eqn:Hb; [apply IH; lia| |done].
  by apply submitBatch_never_throws in Hb.
Qed.

(** X7.  With a chunk size of zero or less the loop index never passes the end
    of a non-empty input: the call does not finish, however many iterations
    it is given. *)
Theorem nonpositive_batch_size_never_finishes w sendFuel loopFuel txs
    (batchSize : Z) delay s :
  txs ≠ [] → batchSize ≤ 0 →
  fst (sendSalesDataInBatches w sendFuel loopFuel txs (Some batchSize) delay s)
  = OutOfFuel.
Proof.
  intros Hne Hc. destruct txs as [|tx txs]; [done|].
  unfold sendSalesDataInBatches. by apply batchLoop_stuck.
Qed.

Lemma nonpositive_batch_size_never_finishes_witness :
  fst (sendSalesDataInBatches acceptingAll 0 50 [sampleTx "order-1" "item-1"]
         (Some (-1)) None authenticated) = OutOfFuel.
Proof.
  apply nonpositive_batch_size_never_finishes; [discriminate|lia].
Defined.

(** ** Against a reporting API that accepts everything *)

Section Accepting.
Variable w : World.
Variable tok : HanteoToken.
Hypothesis accepts :
  ∀ n payload, salesHttp w n payload = accepted (Z.of_nat (length payload)).
Hypothesis stays_valid : ∀ k, clock w k + 300000 < expiresAt tok.

Lemma accepted_submission fuel (batch : list SalesTransaction) s :
  token s = Some tok → batch ≠ [] → Z.of_nat (length batch) ≤ maxBatchSize →
  ∃ salesData s1,
    sendSalesData w fuel batch s
    = (Returned {| code := 100; message := Some (lit "Success");
                   resultData :=
                     Some {| requestCount := Z.of_nat (length batch);
                             successCount := Z.of_nat (length batch);
                             failCount := 0; failData := None |} |},
       s1)
    ∧ token s1 = Some tok
    ∧ trace s1 = trace s ++ [EvSales (accessToken tok) salesData].
Proof using accepts stays_valid.
  intros Htok Hne Hlen. rewrite sendSalesData_unfold.
  assert (Hv : tokenValidAt w s = true).
  { unfold tokenValidAt. rewrite Htok. apply Z.ltb_lt, stays_valid. }
  unfold bind at 1. rewrite (ensureAuthenticated_valid _ _ Hv).
  destruct batch as [|tx batch]; [done|]. cbn [length Nat.eqb]. cbv beta iota.
  unfold bind at 1.
  match goal with |- context [mapM _ _ ?st] =>
    destruct (convert_all_run w (tx :: batch) st) as (sd & Hsd & Hl) end.
  rewrite Hsd, Hl. cbv beta iota.
  rewrite Z.gtb_ltb, (proj2 (Z.ltb_ge _ _)) by lia.
  cbn [token ticks posts trace]. rewrite Htok.
  unfold tryCatch at 1, bind at 1, retryWithBackoff. cbn [retryLoop].
  unfold tryCatch at 1, postSales at 1, bind at 1, get, post. cbn [token posts trace ticks].
  rewrite accepts, Hl. unfold accepted. cbn.
  eexists sd, _. split; [reflexivity|]. cbn. done.
Qed.

Lemma accepted_batch fuel d (batch : list SalesTransaction) more results s :
  token s = Some tok → batch ≠ [] → Z.of_nat (length batch) ≤ maxBatchSize →
  ∃ s1,
    submitBatch w fuel d batch more results s
    = (Returned {| totalSent := totalSent results + Z.of_nat (length batch);
                   totalSuccess := totalSuccess results + Z.of_nat (length batch);
                   totalFailed := totalFailed results + 0;
                   batchResults :=
                     batchResults results
                     ++ [{| code := 100; message := Some (lit "Success");
                            resultData :=
                              Some {| requestCount := Z.of_nat (length batch);
                                      successCount := Z.of_nat (length batch);
                                      failCount := 0; failData := None |} |}];
                   failedTransactions := failedTransactions results |},
       s1)
    ∧ token s1 = Some tok
    ∧ count isSales (trace s1) = S (count isSales (trace s))
    ∧ count isAuth (trace s1) = count isAuth (trace s)
    ∧ count isBatchDelay (trace s1)
      = (count isBatchDelay (trace s) + if more then 1 else 0)%nat.
Proof using accepts stays_valid.
  intros Htok Hne Hlen.
  destruct (accepted_submission fuel batch s Htok Hne Hlen) as (sd & s1 & Hs & Ht1 & Htr).
  unfold submitBatch, tryCatch. unfold bind at 1. rewrite Hs.
  cbn [resultData failData requestCount successCount failCount].
  unfold bind, ret, emit, modify.
  destruct more; cbn; eexists; (split; [reflexivity|]); cbn [trace token ticks posts];
    rewrite ?count_snoc, Htr, ?count_snoc; cbn [isSales isAuth isBatchDelay];
    split_and!; try done; lia.
Qed.

Lemma accepted_chunks fuel d (bs : list (list SalesTransaction)) results s :
  token s = Some tok →
  Forall (fun b => b ≠ [] ∧ Z.of_nat (length b) ≤ maxBatchSize) bs →
  ∃ res s',
    runChunks w fuel d bs results s = (Returned res, s')
    ∧ totalSent res = totalSent results + Z.of_nat (length (concat bs))
    ∧ totalSuccess res = totalSuccess results + Z.of_nat (length (concat bs))
    ∧ totalFailed res = totalFailed results
    ∧ failedTransactions res = failedTransactions results
    ∧ length (batchResults res) = (length (batchResults results) + length bs)%nat
    ∧ token s' = Some tok
    ∧ count isSales (trace s') = (count isSales (trace s) + length bs)%nat
    ∧ count isAuth (trace s') = count isAuth (trace s)
    ∧ count isBatchDelay (trace s')
      = (count isBatchDelay (trace s) + (length bs - 1))%nat.
Proof using accepts stays_valid.
  intros Htok Hall. revert results s Htok.
  induction Hall as [|b bs [Hne Hlen] Hall IH]; intros results s Htok.
  - exists results, s. cbn. split_and!; try done; lia.
  - cbn [runChunks].
    destruct (accepted_batch fuel d b (match bs with [] => false | _ => true end)
                results s Htok Hne Hlen) as (s1 & Hb & Ht1 & Hc1 & Hc2 & Hc3).
    unfold bind. rewrite Hb.
    match goal with |- context [runChunks _ _ _ _ ?r s1] =>
      destruct (IH r s1 Ht1) as (res & s' & Hr & H1 & H2 & H3 & H4 & H5 & H6 & H7 & H8 & H9) end.
    exists res, s'. rewrite Hr. cbn in H1, H2, H3, H4, H5.
    rewrite length_app in H5. cbn [concat length] in *. rewrite length_app.
    split_and!; try done; try lia.
    rewrite H9, Hc3. destruct bs; cbn [length]; lia.
Qed.

End Accepting.

Lemma chunks_bounded {A} c (xs : list A) :
  (1 ≤ c)%nat → Forall (fun b => b ≠ [] ∧ (length b ≤ c)%nat) (chunks c xs).
Proof.
  intros Hc. pattern xs. apply (chunks_ind c _ Hc); clear xs; [constructor|].
  intros x xs IH. rewrite chunks_cons by done. constructor; [|done].
  split.
  - destruct c; [lia|]. done.
  - rewrite length_take. lia.
Qed.

(** X8.  Against a reporting API that accepts every record, with a token that
    stays valid and a chunk size between 1 and 100, the chunked submission
    of [n] transactions returns [totalSent = totalSuccess = n], no failure,
    one reply per chunk, after one POST per chunk, no handshake, and one
    wait between each two chunks. *)
Theorem accepted_run_accounts_for_all w tok sendFuel loopFuel txs (c : nat)
    delay s :
  (∀ n payload, salesHttp w n payload = accepted (Z.of_nat (length payload))) →
  (∀ k, clock w k + 300000 < expiresAt tok) →
  token s = Some tok →
  (1 ≤ c ≤ 100)%nat →
  (length txs ≤ loopFuel)%nat →
  ∃ res s',
    sendSalesDataInBatches w sendFuel loopFuel txs (Some (Z.of_nat c)) delay s
    = (Returned res, s')
    ∧ totalSent res = Z.of_nat (length txs)
    ∧ totalSuccess res = Z.of_nat (length txs)
    ∧ totalFailed res = 0
    ∧ failedTransactions res = []
    ∧ length (batchResults res) = length (chunks c txs)
    ∧ count isSales (trace s') = (count isSales (trace s) + length (chunks c txs))%nat
    ∧ count isAuth (trace s') = count isAuth (trace s)
    ∧ count isBatchDelay (trace s')
      = (count isBatchDelay (trace s) + (length (chunks c txs) - 1))%nat.
Proof.
  intros Hacc Hvalid Htok Hc Hfuel.
  unfold sendSalesDataInBatches. cbn [default].
  rewrite (batchLoop_runChunks w sendFuel loopFuel txs c _ 0) by lia.
  cbn [drop].
  destruct (accepted_chunks w tok Hacc Hvalid sendFuel (default 1000 delay)
              (chunks c txs) noResults s Htok)
    as (res & s' & Hr & H1 & H2 & H3 & H4 & H5 & _ & H7 & H8 & H9).
  { eapply Forall_impl; [apply chunks_bounded; lia|].
    intros b [Hne Hb]. split; [done|]. unfold maxBatchSize. lia. }
  exists res, s'. rewrite concat_chunks in H1, H2 by lia.
  cbn in H1, H2, H3, H4, H5. split_and!; try done.
Qed.

Lemma accepted_run_accounts_for_all_witness :
  ∃ res,
    fst (sendSalesDataInBatches acceptingAll 0 3
           [sampleTx "order-1" "item-1"; sampleTx "order-2" "item-2";
            sampleTx "order-3" "item-3"] (Some 2) None authenticated)
    = Returned res
    ∧ totalSent res = 3 ∧ totalFailed res = 0.
Proof.
  destruct (accepted_run_accounts_for_all acceptingAll
              {| accessToken := lit "token-0"; tokenType := lit "bearer";
                 expiresAt := 1749700000000 |} 0 3
              [sampleTx "order-1" "item-1"; sampleTx "order-2" "item-2";
               sampleTx "order-3" "item-3"] 2 None authenticated)
    as (res & s' & Hr & H1 & _ & H3 & _).
  - intros n payload. reflexivity.
  - intros k. cbn. lia.
  - reflexivity.
  - lia.
  - cbn. lia.
  - exists res. change (Z.of_nat 2) with 2 in Hr. rewrite Hr. by split_and!.
Defined.

End BatchFacts.

Module BarcodeFacts.
Import Js Validators ValidatorsSpec ValidatorsFacts.

Lemma trimStart_fixed (s : str) :
  (∀ c r, s = c :: r → isWhiteSpace c = false) → trimStart s = s.
Proof.
  destruct s as [|c s]; [done|]. intros H. cbn. by rewrite (H c s eq_refl).
Qed.

Lemma trim_idempotent (s : str) : trim (trim s) = trim s.
Proof.
  destruct (trim_ends s) as [Hhead Hlast].
  unfold trim at 1. rewrite (trimStart_fixed (trim s)) by done.
  unfold trimEnd. rewrite (trimStart_fixed (rev (trim s))).
  - apply rev_involutive.
  - intros c r Hr. apply (Hlast (rev r) c).
    rewrite <- (rev_involutive (trim s)), Hr. done.
Qed.

(** X12.  Validation looks through surrounding white space: the trimmed barcode,
    which is what gets stored, is valid exactly when the raw one is. *)
Theorem isValidBarcode_trim (s : str) : isValidBarcode (trim s) = isValidBarcode s.
Proof.
  unfold isValidBarcode. rewrite trim_idempotent.
  destruct s as [|c s]; [done|].
  destruct (trim (c :: s)) as [|x t]; done.
Qed.

(** X13.  The ISBN13 entry of [BARCODE_PATTERNS] never changes the answer: what
    it matches, EAN13 matches already. *)
Theorem isbn13_pattern_is_redundant (t : str) :
  existsb (fun p => test p t) BARCODE_PATTERNS
  = existsb (fun p => test p t) [EAN13; EAN8; UPC; ISBN10].
Proof.
  unfold BARCODE_PATTERNS. cbn [existsb]. rewrite !orb_false_r.
  destruct (test ISBN13 t) eqn:H13; [|by rewrite orb_false_r].
  apply test_ISBN13 in H13 as (d & rest & -> & Hd & [Hlen Hall]).
  assert (test EAN13 ([57%N; 55%N; d] ++ rest) = true) as ->; [|done].
  apply test_numeric. split.
  - cbn. by rewrite Hlen.
  - unfold allDigits in *. repeat constructor; [destruct Hd as [-> | ->]; done|done].
Qed.

End BarcodeFacts.

Module TagFacts.
Import Js Text Tags.

Lemma splitOn_nonempty sep (s : str) : splitOn sep s ≠ [].
Proof.
  induction s as [|c s IH]; [done|]. cbn.
  destruct (c =? sep)%N; [done|]. by destruct (splitOn sep s).
Qed.

Lemma splitOn_app sep (a b : str) :
  splitOn sep (a ++ sep :: b) = splitOn sep a ++ splitOn sep b.
Proof.
  induction a as [|c a IH]; cbn.
  - by rewrite N.eqb_refl.
  - destruct (c =? sep)%N; [by rewrite IH|].
    rewrite IH. pose proof (splitOn_nonempty sep a) as Hne.
    by destruct (splitOn sep a).
Qed.

Lemma isAscii_app (a b : str) : isAscii (a ++ b) ↔ isAscii a ∧ isAscii b.
Proof. apply Forall_app. Qed.

Lemma hasAlbumTag_parts toLowerCase (tags : str) :
  hasAlbumTag toLowerCase tags =
  match tags with
  | [] => false
  | _ => existsb (fun e => Js.eqb (lit "album") (trim e)
                          || Js.eqb (lit "albums") (trim e))
           (splitOn 44 (toLowerCase tags))
  end.
Proof.
  destruct tags as [|c tags]; [done|]. unfold hasAlbumTag.
  generalize (splitOn 44 (toLowerCase (c :: tags))). intros l.
  induction l as [|e l IH]; [done|]. cbn [List.map existsb].
  rewrite <- IH. destruct (Js.eqb (lit "album") (trim e)),
    (Js.eqb (lit "albums") (trim e)); cbn; try done.
  by rewrite orb_true_r.
Qed.

Section Lowering.
Variable toLowerCase : str → str.
Hypothesis lowers_ascii : ∀ s, isAscii s → toLowerCase s = lowerAscii s.

Lemma hasAlbumTag_ascii (tags : str) :
  isAscii tags →
  hasAlbumTag toLowerCase tags
  = existsb (fun e => Js.eqb (lit "album") (trim e)
                      || Js.eqb (lit "albums") (trim e))
      (splitOn 44 (lowerAscii tags)).
Proof using lowers_ascii.
  intros Ha. rewrite hasAlbumTag_parts. destruct tags as [|c tags]; [done|].
  by rewrite lowers_ascii.
Qed.

Lemma hasAlbumTag_comma (a b : str) :
  isAscii a → isAscii b →
  hasAlbumTag toLowerCase (a ++ lit "," ++ b)
  = hasAlbumTag toLowerCase a || hasAlbumTag toLowerCase b.
Proof using lowers_ascii.
  intros Ha Hb. rewrite !hasAlbumTag_ascii; [|done|done|].
  - unfold lowerAscii. rewrite List.map_app. change (lit ",") with [44%N].
    cbn [List.map app]. change (asciiLower 44) with 44%N.
    rewrite splitOn_app. by rewrite existsb_app.
  - apply isAscii_app. split; [done|]. apply isAscii_app. split; [|done].
    change (lit ",") with [44%N]. repeat constructor.
Qed.

Lemma join_ascii (tags : list str) :
  Forall isAscii tags → isAscii (join (lit ",") tags).
Proof.
  induction 1 as [|t ts Ht Hts IH]; [constructor|].
  destruct ts as [|t' ts]; [done|]. cbn [join].
  apply isAscii_app. split; [done|]. apply isAscii_app. split; [|done].
  change (lit ",") with [44%N]. repeat constructor.
Qed.

(** X14.  A product's tags, joined with commas as [getAlbumProducts] does, pass
    [hasAlbumTag] exactly when one of the tags passes it on its own. *)
Theorem hasAlbumTag_join (tags : list str) :
  Forall isAscii tags →
  hasAlbumTag toLowerCase (join (lit ",") tags)
  = existsb (hasAlbumTag toLowerCase) tags.
Proof using lowers_ascii.
  induction 1 as [|t ts Ht Hts IH]; [done|].
  destruct ts as [|t' ts].
  - cbn. by rewrite orb_false_r.
  - change (join (lit ",") (t :: t' :: ts))
      with (t ++ lit "," ++ join (lit ",") (t' :: ts)).
    rewrite hasAlbumTag_comma; [|done|by apply join_ascii].
    by rewrite IH.
Qed.

End Lowering.

Lemma hasAlbumTag_join_witness :
  hasAlbumTag lowerAscii (join (lit ",") [lit "K-Pop"; lit " Albums "])
  = existsb (hasAlbumTag lowerAscii) [lit "K-Pop"; lit " Albums "].
Proof.
  apply (hasAlbumTag_join lowerAscii).
  - intros s _. reflexivity.
  - repeat constructor; vm_compute; reflexivity.
Defined.

(** The cases of the repository's own test suite. *)
Example hasAlbumTag_cases :
  List.map (fun t => hasAlbumTag lowerAscii (lit t))
    ["album,k-pop,new"; "Album,K-POP"; "music,ALBUM,2025"; "new,albums,release";
     " album , k-pop "; "merchandise,t-shirt"; "book,photocard"; ""]%string
  = [true; true; true; true; true; false; false; false].
Proof. reflexivity. Qed.

End TagFacts.

Module GenderFacts.
Import Js Text Sync Demographics.

Lemma startsWith_spec (sub s : str) :
  startsWith sub s = true ↔ ∃ post, s = sub ++ post.
Proof.
  revert s. induction sub as [|a sub IH]; intros s; cbn.
  - split; [by exists s|done].
  - destruct s as [|c s].
    + split; [done|]. by intros [post H].
    + rewrite andb_true_iff, N.eqb_eq, IH. split.
      * intros [-> [post ->]]. by exists post.
      * intros [post [= -> ->]]. split; [done|]. by exists post.
Qed.

Lemma includes_spec (sub s : str) :
  includes sub s = true ↔ ∃ pre post, s = pre ++ sub ++ post.
Proof.
  induction s as [|c s IH]; cbn.
  - destruct (startsWith sub []) eqn:Hs.
    + apply startsWith_spec in Hs as [post Hs]. split; [|done].
      intros _. by exists [], post.
    + split; [done|]. intros ([|? ?] & post & Hp); [|done].
      assert (startsWith sub [] = true) by (apply startsWith_spec; by exists post).
      congruence.
  - destruct (startsWith sub (c :: s)) eqn:Hs.
    + apply startsWith_spec in Hs as [post Hs]. split; [|done].
      intros _. by exists [], post.
    + rewrite IH. split.
      * intros (pre & post & ->). by exists (c :: pre), post.
      * intros ([|x pre] & post & Hp).
        -- assert (startsWith sub (c :: s) = true)
             by (apply startsWith_spec; by exists post).
           congruence.
        -- injection Hp as -> ->. by exists pre, post.
Qed.

(** A string that holds [a ++ b] holds [b]. *)
Lemma includes_tail (a b s : str) :
  includes (a ++ b) s = true → includes b s = true.
Proof.
  rewrite !includes_spec. intros (pre & post & ->).
  exists (pre ++ a), post. by rewrite <- !app_assoc.
Qed.

(** X15.  Tags that hold "female" or "woman" hold "male" or "man", which is
    tested first: such a customer is reported as [M], and [W] is only ever
    read from the note. *)
Theorem female_tag_is_reported_male toLowerCase (customer : Customer) (t : str) :
  truthy (ctags customer) = Some t →
  includes (lit "female") (toLowerCase t) = true
  ∨ includes (lit "woman") (toLowerCase t) = true →
  extractGenderFromCustomer toLowerCase customer = Some (lit "M").
Proof.
  intros Ht Hf. unfold extractGenderFromCustomer. rewrite Ht.
  assert (includes (lit "male") (toLowerCase t) || includes (lit "man") (toLowerCase t)
          = true) as ->; [|done].
  apply orb_true_iff. destruct Hf as [Hf|Hf].
  - left. by apply (includes_tail (lit "fe") (lit "male")).
  - right. by apply (includes_tail (lit "wo") (lit "man")).
Qed.

Lemma female_tag_is_reported_male_witness :
  extractGenderFromCustomer lowerAscii
    {| ctags := Some (lit "VIP, Female"); note := None |} = Some (lit "M").
Proof.
  apply (female_tag_is_reported_male lowerAscii _ (lit "VIP, Female")).
  - reflexivity.
  - left. vm_compute. reflexivity.
Defined.

(** X16.  [W] never comes from the tags: whenever the result is [W], the note
    holds one of the markers [gender:f], [gender: f], [gender:w],
    [gender: w]. *)
Theorem woman_only_from_note toLowerCase (customer : Customer) :
  extractGenderFromCustomer toLowerCase customer = Some (lit "W") →
  ∃ n, truthy (note customer) = Some n
       ∧ (includes (lit "gender:f") (toLowerCase n)
          || includes (lit "gender: f") (toLowerCase n)
          || includes (lit "gender:w") (toLowerCase n)
          || includes (lit "gender: w") (toLowerCase n)) = true.
Proof.
  unfold extractGenderFromCustomer.
  assert (Hnote :
    match truthy (note customer) with
    | Some n =>
        if includes (lit "gender:m") (toLowerCase n)
           || includes (lit "gender: m") (toLowerCase n)
        then Some (lit "M")
        else if includes (lit "gender:f") (toLowerCase n)
                || includes (lit "gender: f") (toLowerCase n)
                || includes (lit "gender:w") (toLowerCase n)
                || includes (lit "gender: w") (toLowerCase n)
        then Some (lit "W") else None
    | None => None
    end = Some (lit "W") →
    ∃ n, truthy (note customer) = Some n
       ∧ (includes (lit "gender:f") (toLowerCase n)
          || includes (lit "gender: f") (toLowerCase n)
          || includes (lit "gender:w") (toLowerCase n)
          || includes (lit "gender: w") (toLowerCase n)) = true).
  { destruct (truthy (note customer)) as [n|]; [|done].
    destruct (_ || _); [done|].
    destruct (_ || _ || _ || _) eqn:Hw; [|done]. intros _. by exists n. }
  destruct (truthy (ctags customer)) as [t|]; [|done].
  destruct (includes (lit "male") (toLowerCase t) || includes (lit "man") (toLowerCase t))
    eqn:Hm; [done|].
  destruct (includes (lit "female") (toLowerCase t)
            || includes (lit "woman") (toLowerCase t)) eqn:Hf; [|done].
  exfalso. apply orb_false_iff in Hm as [Hm1 Hm2].
  apply orb_true_iff in Hf as [Hf|Hf].
  - apply (includes_tail (lit "fe") (lit "male")) in Hf. congruence.
  - apply (includes_tail (lit "wo") (lit "man")) in Hf. congruence.
Qed.

Lemma woman_only_from_note_witness :
  ∃ n, truthy (note {| ctags := None; note := Some (lit "Gender: F") |}) = Some n
       ∧ (includes (lit "gender:f") (lowerAscii n)
          || includes (lit "gender: f") (lowerAscii n)
          || includes (lit "gender:w") (lowerAscii n)
          || includes (lit "gender: w") (lowerAscii n)) = true.
Proof.
  apply (woman_only_from_note lowerAscii
           {| ctags := None; note := Some (lit "Gender: F") |}).
  vm_compute. reflexivity.
Defined.

(** X28.  The gender that [extractGenderFromCustomer] finds is [M] or [W],
    and [convertGender] hands either on to the reporting record as it
    is. *)
Theorem extracted_gender_is_kept toLowerCase toUpperCase (customer : Customer)
    (g : str) :
  toUpperCase (lit "M") = lit "M" →
  toUpperCase (lit "W") = lit "W" →
  extractGenderFromCustomer toLowerCase customer = Some g →
  (g = lit "M" ∨ g = lit "W") ∧ convertGender toUpperCase (Some g) = Some g.
Proof.
  intros HM HW Hg.
  assert (Hv : g = lit "M" ∨ g = lit "W").
  { revert Hg. unfold extractGenderFromCustomer.
    destruct (truthy (note customer)) as [n|];
      destruct (truthy (ctags customer)) as [t|];
      repeat match goal with
             | |- context [if ?b then _ else _] => destruct b
             end;
      intros [= <-]; auto. }
  split; [done|].
  destruct Hv as [-> | ->]; unfold convertGender.
  - change (truthy (Some (lit "M"))) with (Some (lit "M")). cbv beta iota zeta.
    rewrite HM. reflexivity.
  - change (truthy (Some (lit "W"))) with (Some (lit "W")). cbv beta iota zeta.
    rewrite HW. reflexivity.
Qed.

Lemma extracted_gender_is_kept_witness :
  (lit "W" = lit "M" ∨ lit "W" = lit "W")
  ∧ convertGender (List.map upcase) (Some (lit "W")) = Some (lit "W").
Proof.
  apply (extracted_gender_is_kept lowerAscii (List.map upcase)
           {| ctags := None; note := Some (lit "gender: w") |}).
  - reflexivity.
  - reflexivity.
  - vm_compute. reflexivity.
Defined.

End GenderFacts.

Module CountryFacts.
Import Js Country CountrySpec.




(** The cases of the repository's own test suite. *)
Example getCountryCode_cases :
  List.map (fun n => getCountryCode (lit n))
    ["United States"; "South Korea"; "Japan"; "Unknown Country"]%string
  = [Code (lit "US"); Code (lit "KR"); Code (lit "JP"); Code (lit "XX")].
Proof. reflexivity. Qed.

End CountryFacts.

Module TagYearFacts.
Import Js Validators ValidatorsSpec ValidatorsFacts Sync BirthYearSpec.








End TagYearFacts.

Module CacheFacts.
Import Js Eff ErrorHandler Validators Sync SyncSpec SyncFacts.
Local Open Scope Z_scope.

Lemma fold_insert_lookup (products : list AlbumProduct) (m : gmap Z AlbumProduct)
    (k : Z) :
  fold_left (fun m product => <[variantId product := product]> m) products m !! k
  = match last (filter (fun p => variantId p = k) products) with
    | Some p => Some p
    | None => m !! k
    end.
Proof.
  revert m. induction products as [|p ps IH]; intros m; [done|].
  cbn [fold_left]. rewrite IH. rewrite filter_cons.
  destruct (decide (variantId p = k)) as [Hk|Hk].
  - destruct (filter _ ps) as [|q l] eqn:Hf.
    + cbn. by rewrite <- Hk, lookup_insert_eq.
    + rewrite !last_cons. by destruct (last l).
  - destruct (last (filter _ ps)); [done|]. by rewrite lookup_insert_ne.
Qed.

(** X18.  After a refresh that succeeded, a lookup by variant id finds the last
    fetched product with that id, and nothing for an id that was not
    fetched, whatever the cache held before. *)
Theorem refresh_lookup w s (products : list AlbumProduct) (k : Z) :
  getAlbumProducts w (fetches s) = inr products →
  albumProductsCache (snd (syncAlbumProducts w s)) !! k
  = last (filter (fun p => variantId p = k) products).
Proof.
  intros Hfetch. rewrite syncAlbumProducts_run, Hfetch. cbn [snd albumProductsCache].
  unfold rebuild. rewrite fold_insert_lookup, lookup_empty.
  by destruct (last _).
Qed.

Lemma refresh_lookup_witness :
  albumProductsCache (snd (syncAlbumProducts halfHourly warm)) !! 9876543210
  = last (filter (fun p => variantId p = 9876543210) [sampleProduct]).
Proof. exact (refresh_lookup halfHourly warm [sampleProduct] 9876543210 eq_refl). Defined.

(** X19.  A refresh that finds no album product leaves the cache empty, and the
    next check refreshes again however little time has passed. *)
Theorem empty_catalogue_is_fetched_again w s :
  getAlbumProducts w (fetches s) = inr [] →
  let s1 := snd (syncAlbumProducts w s) in
  albumProductsCache s1 = ∅
  ∧ fetches (snd (ensureProductsCached w s1)) = S (fetches s1).
Proof.
  intros Hfetch. cbv zeta. rewrite syncAlbumProducts_run, Hfetch. cbn [snd].
  split; [done|].
  rewrite ensureProductsCached_run. cbn [albumProductsCache lastCacheUpdate ticks].
  change (rebuild []) with (∅ : gmap Z AlbumProduct).
  rewrite map_size_empty, orb_true_r, syncAlbumProducts_run.
  cbn [ticked fetches albumProductsCache lastCacheUpdate ticks].
  by destruct (getAlbumProducts w (S (fetches s))).
Qed.

Lemma empty_catalogue_is_fetched_again_witness :
  fetches (snd (ensureProductsCached
                  {| clock := fun _ => 0; getAlbumProducts := fun _ => inr [] |}
                  (snd (syncAlbumProducts
                          {| clock := fun _ => 0; getAlbumProducts := fun _ => inr [] |}
                          initial)))) = 2%nat.
Proof.
  exact (proj2 (empty_catalogue_is_fetched_again
                  {| clock := fun _ => 0; getAlbumProducts := fun _ => inr [] |}
                  initial eq_refl)).
Defined.

End CacheFacts.

Module ShopifyFacts.
Import Js Validators ValidatorsSpec Shopify ShopifySpec TextFacts.
Local Open Scope Z_scope.

Lemma nearestDouble_exact (z : Z) : 0 ≤ z ≤ 2 ^ 53 → nearestDouble z = z.
Proof.
  intros [Hz Hle]. unfold nearestDouble.
  destruct (Z.eq_dec z (2 ^ 53)) as [->|Hne]; [reflexivity|].
  assert (Z.log2 z ≤ 52) as Hl.
  { destruct (Z.eq_dec z 0) as [->|Hz0]; [done|].
    assert (Z.log2 z < 53); [|lia]. apply Z.log2_lt_pow2; lia. }
  by rewrite (proj2 (Z.leb_le _ _) Hl).
Qed.

Lemma forallb_digits_slash (a b : str) : forallb isDigit (a ++ 47%N :: b) = false.
Proof.
  rewrite forallb_app. cbn [forallb]. change (isDigit 47) with false.
  by rewrite andb_false_r.
Qed.

Lemma search_idAt (path digits : str) :
  digits ≠ [] → Forall (fun c => isDigit c = true) digits →
  search idAt (path ++ 47%N :: digits) = Some digits.
Proof.
  intros Hne Hall.
  assert (Hlast : idAt (47%N :: digits) = Some digits).
  { unfold idAt. destruct digits as [|d ds]; [done|].
    rewrite N.eqb_refl. cbn [andb].
    by rewrite (proj2 (forallb_forall _ _)) by (intros x Hx; apply list_elem_of_In in Hx;
      by eapply Forall_forall in Hall). }
  induction path as [|c path IH].
  - cbn [app search]. by rewrite Hlast.
  - cbn [app search].
    assert (idAt (c :: path ++ 47%N :: digits) = None) as ->; [|exact IH].
    unfold idAt. destruct (path ++ 47%N :: digits) as [|d ds] eqn:Hp; [done|].
    rewrite <- Hp, forallb_digits_slash. by rewrite andb_false_r.
Qed.

(** X27.  [extractIdFromGid] reads the numeric id that ends a GraphQL gid back
    exactly, for every id up to [2^53] and whatever comes before the last
    slash. *)
Theorem extractIdFromGid_round_trip toNumber (path : str) (n : Z) :
  (∀ z, 0 ≤ z ≤ 2 ^ 53 → toNumber z = z) →
  0 ≤ n ≤ 2 ^ 53 →
  extractIdFromGid toNumber (path ++ lit "/" ++ ofZ n) = n.
Proof.
  intros Hexact Hn. unfold extractIdFromGid. change (lit "/") with [47%N].
  cbn [app]. destruct (ofZ_numeral n) as (Hne & Hall & Hval); [lia|].
  rewrite search_idAt by done. rewrite Hval. by apply Hexact.
Qed.

Lemma extractIdFromGid_round_trip_witness :
  extractIdFromGid nearestDouble
    (lit "gid://shopify/ProductVariant" ++ lit "/" ++ ofZ 9876543210)
  = 9876543210.
Proof.
  apply (extractIdFromGid_round_trip nearestDouble
           (lit "gid://shopify/ProductVariant") 9876543210).
  - exact nearestDouble_exact.
  - lia.
Defined.

End ShopifyFacts.

Module OrderFacts.
Import Js Eff ErrorHandler Orders OrdersSpec App AppSpec.
Local Open Scope Z_scope.

Lemma lineItemsLoop_spec rt cache order f items acc :
  lineItemsLoop rt cache order f items acc
  = acc ++ omap (fun li => transactionOf rt order f li <$> cache !! variant_id li)
                items.
Proof.
  revert acc. induction items as [|li items IH]; intros acc; cbn [lineItemsLoop].
  - by rewrite app_nil_r.
  - csimpl. destruct (cache !! variant_id li) as [p|]; csimpl; rewrite IH; [|done].
    by rewrite <- app_assoc.
Qed.

Lemma fulfillmentsLoop_spec rt cache order fs acc :
  fulfillmentsLoop rt cache order fs acc = acc ++ reported rt cache order fs.
Proof.
  revert acc. induction fs as [|f fs IH]; intros acc; cbn [fulfillmentsLoop].
  - by rewrite app_nil_r.
  - unfold reported. cbn [List.filter]. destruct (tracked f); rewrite IH; [|done].
    rewrite lineItemsLoop_spec. cbn [List.map concat]. by rewrite <- app_assoc.
Qed.

Lemma processOrder_run rt w order s :
  processOrder rt w order s
  = match carried order with
    | [] =>
        (match getOrderFulfillments w (calls s) (o_id order) with
         | inr fs => Returned (reported rt (Sync.albumProductsCache (sync s)) order fs)
         | inl e => Thrown e
         end, called s)
    | fs => (Returned (reported rt (Sync.albumProductsCache (sync s)) order fs), s)
    end.
Proof.
  unfold processOrder, carried, bind, call, get, ret, called.
  destruct (fulfillments order) as [[|f fs]|]; cbn [default];
    rewrite ?fulfillmentsLoop_spec; try done;
    destruct (getOrderFulfillments w (calls s) (o_id order)); cbn [sync];
    by rewrite ?fulfillmentsLoop_spec.
Qed.

Lemma tracked_hasTracking (f : ShopifyFulfillment) : tracked f = hasTracking f.
Proof.
  unfold tracked, hasTracking, present, Sync.truthy.
  by destruct (tracking_number f) as [[|? ?]|], (tracking_numbers f) as [[|? ?]|].
Qed.

Lemma reported_lines rt cache order fs :
  List.map lineOf (reported rt cache order fs) = expectedLines cache order fs.
Proof.
  unfold reported, expectedLines.
  induction fs as [|f fs IH]; [done|].
  cbn [List.filter flat_map]. rewrite tracked_hasTracking.
  destruct (hasTracking f); [|done].
  cbn [List.map concat]. rewrite List.map_app, IH. f_equal.
  generalize (line_items f). intros items.
  induction items as [|li items IHi]; [done|].
  csimpl. cbn [flat_map].
  destruct (cache !! variant_id li) as [p|]; csimpl; by rewrite IHi.
Qed.

(** X20.  When the order payload carries fulfilments, [processOrder] asks
    Shopify for nothing and changes nothing.  What it returns is, in payload
    order, one transaction for each line item that a fulfilment with a
    tracking number ([tracking_number] not empty, or [tracking_numbers] not
    empty) holds and whose variant is in the album cache: it carries the
    order id, the line item id, the barcode the cache holds for the variant,
    the quantity of the line item and the status [pending]; fulfilments
    without a tracking number and variants outside the cache give
    nothing. *)
Theorem processOrder_reports_tracked_album_items rt w order s :
  carried order ≠ [] →
  ∃ txs,
    processOrder rt w order s = (Returned txs, s)
    ∧ List.map lineOf txs
      = expectedLines (Sync.albumProductsCache (sync s)) order (carried order).
Proof.
  intros Hne. rewrite processOrder_run.
  destruct (carried order) as [|f fs]; [done|].
  eexists. split; [reflexivity|]. apply reported_lines.
Qed.

Lemma processOrder_reports_tracked_album_items_witness :
  ∃ txs,
    processOrder asciiRuntime (shop [] mixedOrder) mixedOrder started
    = (Returned txs, started)
    ∧ List.map lineOf txs
      = [{| l_order := lit "5555555557"; l_item := lit "7777777781";
            l_barcode := lit "8809633189505"; l_quantity := 3;
            l_status := lit "pending" |};
         {| l_order := lit "5555555557"; l_item := lit "7777777785";
            l_barcode := lit "8809633189505"; l_quantity := 1;
            l_status := lit "pending" |}].
Proof.
  destruct (processOrder_reports_tracked_album_items asciiRuntime
              (shop [] mixedOrder) mixedOrder started) as (txs & Hrun & Hlines).
  - discriminate.
  - exists txs. split; [exact Hrun|]. rewrite Hlines. vm_compute. reflexivity.
Defined.

(** X21.  When the payload carries no fulfilment (the field is absent or the
    list is empty), [processOrder] fetches them with one call; a failure of
    that call is thrown on as it is, and otherwise the fetched fulfilments
    are reported exactly as carried ones are. *)
Theorem processOrder_fetches_missing_fulfilments rt w order s :
  carried order = [] →
  processOrder rt w order s
  = (match getOrderFulfillments w (calls s) (o_id order) with
     | inr fs => Returned (reported rt (Sync.albumProductsCache (sync s)) order fs)
     | inl e => Thrown e
     end, called s).
Proof.
  intros He. rewrite processOrder_run. by rewrite He.
Qed.

Lemma processOrder_fetches_missing_fulfilments_witness :
  processOrder asciiRuntime (shop [] sampleOrder) bareOrder started
  = (Thrown (ShopifyError
               (lit "Shopify Error: Failed to fetch fulfillments for order 5555555555")),
     called started).
Proof.
  exact (processOrder_fetches_missing_fulfilments asciiRuntime
           (shop [] sampleOrder) bareOrder started eq_refl).
Defined.

End OrderFacts.

Module RunFacts.
Import Js Eff ErrorHandler Orders OrdersSpec App AppSpec OrderFacts.
Local Open Scope Z_scope.


(** With fulfilments in every payload the loop makes no call. *)
Lemma ordersLoop_carried rt w orders acc res s :
  Forall (fun o => carried o ≠ []) orders →
  ordersLoop rt w orders acc res s
  = (Returned
       (acc ++ concat (List.map
                         (fun o => reported rt (Sync.albumProductsCache (sync s))
                                     o (carried o)) orders),
        {| ordersProcessed := ordersProcessed res + Z.of_nat (length orders);
           transactionsSent := transactionsSent res;
           transactionsSuccess := transactionsSuccess res;
           transactionsFailed := transactionsFailed res;
           errors := errors res |}),
     s).
Proof.
  intros Hall. revert acc res.
  induction Hall as [|order orders Hne Hall IH]; intros acc res.
  - cbn. rewrite app_nil_r, Z.add_0_r. by destruct res.
  - cbn [ordersLoop]. unfold bind at 1, tryCatch, bind at 1.
    rewrite processOrder_run. destruct (carried order) as [|f fs] eqn:Hc; [done|].
    unfold ret. cbn [fst snd]. rewrite IH.
    cbn [ordersProcessed errors transactionsSent transactionsSuccess
           transactionsFailed List.map concat length].
    rewrite <- app_assoc, Nat2Z.inj_succ.
    replace (ordersProcessed res + 1 + Z.of_nat (length orders))
      with (ordersProcessed res + Z.succ (Z.of_nat (length orders))) by lia.
    by rewrite Hc.
Qed.



(** X23.  When every listed order carries its fulfilments and none has an
    album item to report, [processRecentFulfilledOrders] counts the orders,
    returns zero totals and never touches the reporting service: no
    handshake, no submission. *)
Theorem run_with_nothing_to_report_skips_hanteo rt w sendFuel loopFuel s ss orders :
  Sync.ensureProductsCached (syncWorld w) (sync s) = (Returned tt, ss) →
  getFulfilledOrders w (calls s) = inr orders →
  Forall (fun o => carried o ≠ []
                   ∧ reported rt (Sync.albumProductsCache ss) o (carried o) = [])
         orders →
  processRecentFulfilledOrders rt w sendFuel loopFuel s
  = (Returned {| ordersProcessed := Z.of_nat (length orders);
                 transactionsSent := 0; transactionsSuccess := 0;
                 transactionsFailed := 0; errors := [] |},
     called (withSync s ss)).
Proof.
  intros Hsync Horders Hall. unfold processRecentFulfilledOrders.
  unfold bind at 1, liftSync at 1. rewrite Hsync.
  unfold tryCatch. unfold bind at 1, call at 1. cbn [calls sync hanteo].
  rewrite Horders. cbv beta iota zeta. unfold bind at 1.
  rewrite ordersLoop_carried by (eapply Forall_impl; [exact Hall|by intros o [? ?]]).
  cbn [fst snd app sync].
  assert (Hnone : concat (List.map (fun o => reported rt (Sync.albumProductsCache ss)
                                              o (carried o)) orders) = []).
  { clear -Hall. induction Hall as [|o orders [_ Ho] _ IH]; [done|].
    cbn [List.map concat]. by rewrite Ho, IH. }
  rewrite Hnone. reflexivity.
Qed.

Lemma run_with_nothing_to_report_skips_hanteo_witness :
  processRecentFulfilledOrders asciiRuntime
    (shop [quietOrder; quietOrder] sampleOrder) 0 0 started
  = (Returned {| ordersProcessed := 2;
                 transactionsSent := 0; transactionsSuccess := 0;
                 transactionsFailed := 0; errors := [] |},
     called (withSync started
               (snd (Sync.ensureProductsCached SyncSpec.halfHourly SyncSpec.warm)))).
Proof.
  refine (run_with_nothing_to_report_skips_hanteo asciiRuntime
            (shop [quietOrder; quietOrder] sampleOrder) 0 0 started _
            [quietOrder; quietOrder] _ _ _).
  - vm_compute. reflexivity.
  - reflexivity.
  - repeat constructor; try discriminate; vm_compute; reflexivity.
Defined.

(** X24.  When the cache is due for a refresh and the catalogue cannot be
    fetched, both entry points throw the catalogue's error at once: no order
    is requested, the reporting service is not touched, and the cached
    snapshot stays as it was. *)
Theorem refresh_failure_aborts_the_run rt w sendFuel loopFuel payloadId s e :
  refreshDue (syncWorld w) (sync s) = true →
  Sync.getAlbumProducts (syncWorld w) (Sync.fetches (sync s)) = inl e →
  ∃ s',
    processRecentFulfilledOrders rt w sendFuel loopFuel s = (Thrown e, s')
    ∧ processWebhookFulfillment rt w sendFuel payloadId s = (Thrown e, s')
    ∧ calls s' = calls s ∧ hanteo s' = hanteo s
    ∧ Sync.albumProductsCache (sync s') = Sync.albumProductsCache (sync s).
Proof.
  intros Hdue Hfetch.
  assert (Hsync : ∃ ss, Sync.ensureProductsCached (syncWorld w) (sync s) = (Thrown e, ss)
                        ∧ Sync.albumProductsCache ss = Sync.albumProductsCache (sync s)).
  { rewrite SyncFacts.ensureProductsCached_run. unfold refreshDue in Hdue.
    rewrite Hdue, SyncFacts.syncAlbumProducts_run.
    cbn [SyncSpec.ticked Sync.fetches]. rewrite Hfetch. by eexists. }
  destruct Hsync as (ss & Hsync & Hcache).
  exists (withSync s ss).
  unfold processRecentFulfilledOrders, processWebhookFulfillment, tryCatch.
  unfold bind at 1, liftSync at 1. rewrite Hsync.
  unfold bind at 1, liftSync at 1. rewrite Hsync.
  split_and!; done.
Qed.

Lemma refresh_failure_aborts_the_run_witness :
  ∃ s',
    processRecentFulfilledOrders asciiRuntime (shopWithoutCatalogue [sampleOrder])
      0 5 started
    = (Thrown (ShopifyError (lit "Shopify Error: API Error")), s')
    ∧ calls s' = 0%nat.
Proof.
  destruct (refresh_failure_aborts_the_run asciiRuntime
              (shopWithoutCatalogue [sampleOrder]) 0 5 5555555555 started
              (ShopifyError (lit "Shopify Error: API Error")))
    as (s' & Hrun & _ & Hcalls & _).
  - vm_compute. reflexivity.
  - reflexivity.
  - exists s'. by split.
Defined.

(** X25.  Against a reporting API that accepts every record, with a token that
    stays valid, a run over orders that carry their fulfilments counts every
    order, records no error, and reports every album item once:
    [transactionsSent = transactionsSuccess] is the number of album items,
    [transactionsFailed] is 0, with one submission per 100 items and no
    handshake. *)
Theorem accepted_run_reports_every_album_item rt w tok sendFuel loopFuel s ss
    orders :
  let items := concat (List.map (fun o => reported rt (Sync.albumProductsCache ss)
                                           o (carried o)) orders) in
  Sync.ensureProductsCached (syncWorld w) (sync s) = (Returned tt, ss) →
  getFulfilledOrders w (calls s) = inr orders →
  Forall (fun o => carried o ≠ []) orders →
  (∀ n payload, Hanteo.salesHttp (hanteoWorld w) n payload
                = HanteoSpec.accepted (Z.of_nat (length payload))) →
  (∀ k, Hanteo.clock (hanteoWorld w) k + 300000 < Hanteo.expiresAt tok) →
  Hanteo.token (hanteo s) = Some tok →
  (length items ≤ loopFuel)%nat →
  ∃ s',
    processRecentFulfilledOrders rt w sendFuel loopFuel s
    = (Returned {| ordersProcessed := Z.of_nat (length orders);
                   transactionsSent := Z.of_nat (length items);
                   transactionsSuccess := Z.of_nat (length items);
                   transactionsFailed := 0; errors := [] |},
       s')
    ∧ calls s' = S (calls s)
    ∧ HanteoSpec.count HanteoSpec.isSales (Hanteo.trace (hanteo s'))
      = (HanteoSpec.count HanteoSpec.isSales (Hanteo.trace (hanteo s))
         + length (HanteoSpec.chunks 100 items))%nat
    ∧ HanteoSpec.count HanteoSpec.isAuth (Hanteo.trace (hanteo s'))
      = HanteoSpec.count HanteoSpec.isAuth (Hanteo.trace (hanteo s)).
Proof.
  intros items Hsync Horders Hall Hacc Hvalid Htok Hfuel.
  unfold processRecentFulfilledOrders.
  unfold bind at 1, liftSync at 1. rewrite Hsync.
  unfold tryCatch. unfold bind at 1, call at 1. cbn [calls sync hanteo].
  rewrite Horders. cbv beta iota zeta. unfold bind at 1.
  rewrite ordersLoop_carried by done.
  cbn [fst snd app sync]. fold items.
  cbn [freshResults ordersProcessed errors transactionsSent transactionsSuccess
         transactionsFailed].
  destruct (Nat.ltb_spec 0 (length items)) as [Hpos|Hzero].
  - unfold bind, liftHanteo. cbn [hanteo sync calls].
    unfold Hanteo.sendSalesDataInBatches. cbn [default].
    change Hanteo.maxBatchSize with (Z.of_nat 100).
    change 0 with (Z.of_nat 0) at 1.
    rewrite (HanteoFacts.batchLoop_runChunks (hanteoWorld w) sendFuel loopFuel
               (List.map core items) 100 1000 0)
      by (rewrite ?length_map; lia).
    destruct (BatchFacts.accepted_chunks (hanteoWorld w) tok Hacc Hvalid sendFuel
                1000 (HanteoSpec.chunks 100 (List.map core items))
                Hanteo.noResults (hanteo s) Htok)
      as (res & hs & Hr & H1 & H2 & H3 & _ & _ & _ & H7 & H8 & _).
    { eapply Forall_impl; [apply BatchFacts.chunks_bounded; lia|].
      intros b [Hne Hb]. split; [done|]. unfold Hanteo.maxBatchSize. lia. }
    rewrite drop_0, Hr. rewrite HanteoFacts.concat_chunks in H1, H2 by lia.
    rewrite length_map in H1, H2.
    cbn [Hanteo.noResults Hanteo.totalSent Hanteo.totalSuccess Hanteo.totalFailed]
      in H1, H2, H3.
    eexists. split; [|split_and!].
    + rewrite H1, H2, H3. rewrite !Z.add_0_l. reflexivity.
    + done.
    + cbn [hanteo]. rewrite H7.
      by rewrite !HanteoFacts.length_chunks, length_map by lia.
    + done.
  - assert (Hnil : items = []) by (apply length_zero_iff_nil; lia).
    rewrite Hnil. cbn [length HanteoSpec.chunks HanteoSpec.chunksFuel].
    rewrite Z.add_0_l. eexists. split; [reflexivity|].
    cbn [calls hanteo]. split_and!; [done|lia|done].
Qed.

Lemma accepted_run_reports_every_album_item_witness :
  ∃ s',
    processRecentFulfilledOrders asciiRuntime (shop [sampleOrder] sampleOrder)
      0 5 started
    = (Returned {| ordersProcessed := 1; transactionsSent := 1;
                   transactionsSuccess := 1; transactionsFailed := 0;
                   errors := [] |},
       s').
Proof.
  destruct (accepted_run_reports_every_album_item asciiRuntime
              (shop [sampleOrder] sampleOrder)
              {| Hanteo.accessToken := lit "token-0";
                 Hanteo.tokenType := lit "bearer";
                 Hanteo.expiresAt := 1749700000000 |}
              0 5 started
              (snd (Sync.ensureProductsCached SyncSpec.halfHourly SyncSpec.warm))
              [sampleOrder]) as (s' & Hrun & _).
  - vm_compute. reflexivity.
  - reflexivity.
  - repeat constructor. discriminate.
  - intros n payload. reflexivity.
  - intros k. cbn. lia.
  - reflexivity.
  - vm_compute. lia.
  - exists s'. rewrite Hrun. vm_compute. reflexivity.
Defined.

(** X26.  A webhook order is submitted in one piece: when it has more album
    items than [maxBatchSize], the submission is refused with code 604
    after the handshake, if one was due, and nothing of the order is
    submitted. *)
Theorem webhook_order_over_the_limit_is_refused rt w sendFuel payloadId s ss
    order h0 :
  let items := reported rt (Sync.albumProductsCache ss) order (carried order) in
  Sync.ensureProductsCached (syncWorld w) (sync s) = (Returned tt, ss) →
  getOrderById w (calls s) payloadId = inr order →
  carried order ≠ [] →
  Z.of_nat (length items) > Hanteo.maxBatchSize →
  Hanteo.ensureAuthenticated (hanteoWorld w) (hanteo s) = (Returned tt, h0) →
  ∃ s',
    processWebhookFulfillment rt w sendFuel payloadId s
    = (Thrown (newHanteoError
                 (lit "Batch size " ++ ofZ (Z.of_nat (length items))
                  ++ lit " exceeds maximum " ++ ofZ Hanteo.maxBatchSize)
                 (Some Hanteo.INVALID_DATA) None),
       s')
    ∧ Hanteo.posts (hanteo s') = Hanteo.posts h0
    ∧ Hanteo.trace (hanteo s') = Hanteo.trace h0.
Proof.
  intros items Hsync Horder Hcar Hbig Hauth.
  unfold processWebhookFulfillment, tryCatch.
  unfold bind at 1, liftSync at 1. rewrite Hsync.
  unfold bind at 1, call at 1. cbn [calls sync hanteo]. rewrite Horder.
  cbv beta iota zeta. unfold bind at 1. rewrite processOrder_run.
  destruct (carried order) as [|f fs] eqn:Hc; [done|].
  cbn [sync]. fold items.
  assert (Hpos : (0 <? length items)%nat = true).
  { apply Nat.ltb_lt. unfold Hanteo.maxBatchSize in Hbig. lia. }
  rewrite Hpos. unfold bind at 1, liftHanteo at 1. cbn [hanteo].
  rewrite HanteoFacts.sendSalesData_unfold. unfold bind at 1. rewrite Hauth.
  rewrite length_map.
  rewrite (proj2 (Nat.eqb_neq (length items) 0))
    by (unfold Hanteo.maxBatchSize in Hbig; lia).
  destruct (HanteoFacts.convert_all_run (hanteoWorld w) (List.map core items) h0)
    as (sd & Hsd & Hl).
  unfold bind at 1. rewrite Hsd, Hl, length_map.
  rewrite (proj2 (Z.gtb_gt _ _)) by lia.
  unfold throw. eexists. split; [reflexivity|]. done.
Qed.

Lemma webhook_order_over_the_limit_is_refused_witness :
  ∃ s',
    processWebhookFulfillment asciiRuntime (shop [] (bulkOrder 101)) 0
      5555555556 started
    = (Thrown (newHanteoError (lit "Batch size 101 exceeds maximum 100")
                 (Some 604) None),
       s')
    ∧ Hanteo.trace (hanteo s') = [].
Proof.
  destruct (webhook_order_over_the_limit_is_refused asciiRuntime
              (shop [] (bulkOrder 101)) 0 5555555556 started
              (snd (Sync.ensureProductsCached SyncSpec.halfHourly SyncSpec.warm))
              (bulkOrder 101)
              (snd (Hanteo.ensureAuthenticated SubmitterSpec.acceptingAll
                      HanteoSpec.authenticated)))
    as (s' & Hrun & _ & Htr).
  - vm_compute. reflexivity.
  - reflexivity.
  - discriminate.
  - vm_compute. reflexivity.
  - vm_compute. reflexivity.
  - exists s'. rewrite Hrun, Htr. split; vm_compute; reflexivity.
Defined.

End RunFacts.
